(** * CodeFlows: conversion of SARIF code flows into the explorer's step tree

    A shallow embedding of [src/CodeFlows.ts] (class [CodeFlows]) and the
    properties of it that the specification states.

    - JavaScript arrays are lists, read with stdpp's lookup [l !! i]; an
      index past the end reads [None], which is JavaScript's [undefined].
    - An [async] function returns a [Promise]: either [Resolve v] or
      [Reject e]. [await x <- p; k] runs [k] only on a resolved promise;
      a rejection (or a thrown [TypeError]) leaves the function at once.
    - [tryRemapCodeFlows] mutates the tree it is given. The tree is the
      heap of that function: its model threads the heap through every
      loop iteration and keeps it when the promise is rejected. [create]
      builds every object of the tree afresh, so no two positions of a
      tree share a step.
    - [Utilities.parseSarifMessage], [Location.create] and
      [ExplorerContentProvider.ExplorerCallbackCommand] live outside this
      file of the repository; they are parameters of the development.
    - Nesting levels are integers, as SARIF has them. A step ordinal is
      a JavaScript number that the code only copies and prints: it is a
      [JsNumber], an integer in the safe range or any other number as
      JavaScript prints it. *)

From Stdlib Require Import ZArith Ascii DecimalString DecimalNat DecimalZ.
From stdpp Require Import list strings.

Local Open Scope string_scope.
Local Open Scope list_scope.

(* ================================================================== *)
(** ** JavaScript values used by the code                              *)
(* ================================================================== *)

(** Errors a promise of this file can be rejected with: the [TypeError]
    JavaScript throws when a property of [undefined] or [null] is read,
    and whatever the location resolver rejects with. *)
Inductive JsError : Type :=
  | TypeError
  | ResolverError (reason : string).

Inductive Promise (A : Type) : Type :=
  | Resolve (a : A)
  | Reject (e : JsError).
Arguments Resolve {A} a.
Arguments Reject {A} e.

Definition then_ {A B : Type} (p : Promise A) (f : A → Promise B) : Promise B :=
  match p with
  | Resolve a => f a
  | Reject e => Reject e
  end.

Notation "'await' x <- p ; k" := (then_ p (λ x, k))
  (at level 10, x name, p at level 100, k at level 200).

(** [for (let i = 0; i < n; i++) { acc = await body(i, acc) }], written
    over the list of indices the loop visits. *)
Fixpoint for_index {S : Type} (indices : list nat)
    (body : nat → S → Promise S) (acc : S) : Promise S :=
  match indices with
  | [] => Resolve acc
  | i :: rest => await acc' <- body i acc; for_index rest body acc'
  end.

(** The loop shape all three converters share:
    [for (let i = 0; i < xs.length; i++) { await f(xs[i], i).then(y => out.push(y)) }]
    with [out] empty before the loop. Reading [xs[i]] is a lookup; the
    callee reads a property of it, which throws on [undefined]. *)
Definition for_each_push {A B : Type} (xs : list A)
    (f : nat → A → Promise B) : Promise (list B) :=
  for_index (seq 0 (length xs))
    (λ i out,
       match xs !! i with
       | Some x => await y <- f i x; Resolve (out ++ [y])
       | None => Reject TypeError
       end)
    [].

(** [`${i}`] for an array index. *)
Definition index_to_string (n : nat) : string :=
  NilEmpty.string_of_uint (Nat.to_uint n).

(** [Number.MAX_SAFE_INTEGER], which is 2^53 - 1. *)
Definition max_safe_integer : Z := 9007199254740991.

Definition is_safe_integer (z : Z) : bool := (Z.abs z <=? max_safe_integer)%Z.

(** A JavaScript number as the code uses [cFLoc.step]: it is copied and
    it is printed by a template literal, nothing else. An integer [z]
    with [|z| <= 2^53 - 1] (and [-0], which prints as [0]) is
    [SafeInteger z]; every other number, be it [10^21], [2^60] or [1.5],
    is [OtherNumber s] with [s] the string that the language's
    number-to-string conversion gives for it (["1e+21"],
    ["1152921504606847000"], ["1.5"]). *)
Inductive JsNumber : Type :=
  | SafeInteger (z : Z) (safe : is_safe_integer z = true)
  | OtherNumber (printed : string).

(** [`${n}`] for a number: a safe integer prints as its decimal digits,
    with a minus sign when negative; below 2^53 every integer is a
    number of its own and is printed exactly. *)
Definition number_to_string (n : JsNumber) : string :=
  match n with
  | SafeInteger z _ => NilZero.string_of_int (Z.to_int z)
  | OtherNumber printed => printed
  end.

(** [a < b] and [a > b] on numbers that may be [undefined]: [undefined]
    converts to [NaN], and every comparison with [NaN] is [false]. *)
Definition js_lt (a b : option Z) : bool :=
  match a, b with
  | Some x, Some y => (x <? y)%Z
  | _, _ => false
  end.

Definition js_gt (a b : option Z) : bool :=
  match a, b with
  | Some x, Some y => (x >? y)%Z
  | _, _ => false
  end.

Definition is_undefined {A : Type} (a : option A) : bool :=
  match a with
  | None => true
  | Some _ => false
  end.

(* ================================================================== *)
(** ** The SARIF input (module [sarif])                                *)
(* ================================================================== *)

(** A SARIF message object; every member is optional. *)
Record SarifMessage : Type := {
  sm_text : option string;
  sm_messageId : option string;
}.

(** The value of a [message] property: missing, [null] (JSON has it), or
    an object. *)
Inductive MessageField : Type :=
  | MsgUndefined
  | MsgNull
  | MsgObject (m : SarifMessage).

(** JavaScript truthiness of such a value: only objects are truthy. *)
Definition js_falsy (m : MessageField) : bool :=
  match m with
  | MsgUndefined | MsgNull => true
  | MsgObject _ => false
  end.

(** The physical-location descriptor; the code only hands it on. *)
Record PhysicalLocation : Type := {
  pl_uri : string;
  pl_startLine : Z;
}.

Record SarifLocation : Type := {
  sl_physicalLocation : option PhysicalLocation;
  sl_message : MessageField;
}.

Inductive Importance : Type :=
  | essential
  | important
  | unimportant.

Record CodeFlowLocation : Type := {
  cfl_location : SarifLocation;
  cfl_nestingLevel : option Z;
  cfl_importance : option Importance;
  cfl_step : option JsNumber;
  cfl_state : option (list (string * string));
}.

Record SarifThreadFlow : Type := {
  stf_id : option string;
  stf_message : MessageField;
  stf_locations : list CodeFlowLocation;
}.

Record SarifCodeFlow : Type := {
  scf_message : MessageField;
  scf_threadFlows : list SarifThreadFlow;
}.

(* ================================================================== *)
(** ** The processed tree (module [Interfaces])                        *)
(* ================================================================== *)

(** What [Utilities.parseSarifMessage] returns when it returns a value. *)
Record Message : Type := {
  text : string;
}.

Record Location : Type := {
  mapped : bool;
  uri : string;
}.

(** The value of a step's [location]: a [Location], as [Location.create]
    declares, or the [null] that [tryRemapCodeFlows] guards against. *)
Inductive LocationRef : Type :=
  | LocNull
  | LocObject (l : Location).

Record CommandArgument : Type := {
  request : string;
  treeid_step : string;
}.

Record Command : Type := {
  arguments : list CommandArgument;
  command : string;
  title : string;
}.

Record CodeFlowStep : Type := {
  codeLensCommand : Command;
  importance : Importance;
  isLastChild : bool;
  isParent : bool;
  location : LocationRef;
  message : string;
  messageWithStep : string;
  state : option (list (string * string));
  stepId : option JsNumber;
  traversalId : string;
}.

Record ThreadFlow : Type := {
  tf_id : option string;
  tf_message : option string;
  steps : list CodeFlowStep;
}.

Record CodeFlow : Type := {
  cf_message : option string;
  threads : list ThreadFlow;
}.

(** Assignments to one property of an object. *)
Definition set_location (location' : LocationRef) (s : CodeFlowStep) : CodeFlowStep :=
  {| codeLensCommand := codeLensCommand s;
     importance := importance s;
     isLastChild := isLastChild s;
     isParent := isParent s;
     location := location';
     message := message s;
     messageWithStep := messageWithStep s;
     state := state s;
     stepId := stepId s;
     traversalId := traversalId s |}.

Definition set_steps (steps' : list CodeFlowStep) (tf : ThreadFlow) : ThreadFlow :=
  {| tf_id := tf_id tf; tf_message := tf_message tf; steps := steps' |}.

Definition set_threads (threads' : list ThreadFlow) (cf : CodeFlow) : CodeFlow :=
  {| cf_message := cf_message cf; threads := threads' |}.

(* ================================================================== *)
(** ** The class [CodeFlows]                                           *)
(* ================================================================== *)

Module CodeFlows.

(** *** Conversion: [create] and the three converters below it *)

Section Conversion.

(** [Utilities.parseSarifMessage]: a parsed message, or [undefined]. *)
Variable parseSarifMessage : MessageField → option Message.
(** [Location.create]: asynchronous, and it may reject. *)
Variable LocationCreate : option PhysicalLocation → Promise LocationRef.
(** [ExplorerContentProvider.ExplorerCallbackCommand]. *)
Variable ExplorerCallbackCommand : string.

(** [Utilities.parseSarifMessage(m).text]: reading [text] of an
    [undefined] result throws. *)
Definition parsed_text (m : MessageField) : Promise string :=
  match parseSarifMessage m with
  | Some parsed => Resolve (text parsed)
  | None => Reject TypeError
  end.

(** The optional [message] of a code flow and of a thread flow
    (lines 70-72 and 95-97): the guard is [!== undefined]. *)
Definition optional_message (m : MessageField) : Promise (option string) :=
  match m with
  | MsgUndefined => Resolve None
  | _ => await t <- parsed_text m; Resolve (Some t)
  end.

(** Lines 126-136: the pair [(isParentFlag, isLastChildFlag)]. *)
Definition nesting_flags (cFLoc : CodeFlowLocation)
    (nextCFLoc : option CodeFlowLocation) : bool * bool :=
  match nextCFLoc with
  | Some next =>
      if js_lt (cfl_nestingLevel cFLoc) (cfl_nestingLevel next)
         || (is_undefined (cfl_nestingLevel cFLoc)
             && negb (is_undefined (cfl_nestingLevel next)))
      then (true, false)
      else if js_gt (cfl_nestingLevel cFLoc) (cfl_nestingLevel next)
              || (negb (is_undefined (cfl_nestingLevel cFLoc))
                  && is_undefined (cfl_nestingLevel next))
      then (false, true)
      else (false, false)
  | None => (false, false)
  end.

(** Lines 138-150: the step's message text. *)
Definition step_message (cFLoc : CodeFlowLocation) (isLastChildFlag : bool) : string :=
  let message := parseSarifMessage (sl_message (cfl_location cFLoc)) in
  let messageText :=
    match message with
    | Some parsed => text parsed
    | None => ""
    end in
  if String.eqb messageText ""
  then (if isLastChildFlag then "[return call]" else "[no description]")
  else messageText.

Definition createCodeFlowStep (cFLoc : CodeFlowLocation)
    (nextCFLoc : option CodeFlowLocation) (traversalPathId : string)
    : Promise CodeFlowStep :=
  await loc <- LocationCreate (sl_physicalLocation (cfl_location cFLoc));
  let '(isParentFlag, isLastChildFlag) := nesting_flags cFLoc nextCFLoc in
  let messageText := step_message cFLoc isLastChildFlag in
  let messageWithStepText :=
    match cfl_step cFLoc with
    | Some n => "Step " +:+ number_to_string n +:+ ": " +:+ messageText
    | None => messageText
    end in
  let command :=
    {| arguments := [ {| request := "CodeFlowTreeSelectionChange";
                         treeid_step := traversalPathId |} ];
       command := ExplorerCallbackCommand;
       title := messageWithStepText |} in
  Resolve
    {| codeLensCommand := command;
       importance := match cfl_importance cFLoc with
                     | Some i => i
                     | None => important
                     end;
       isLastChild := isLastChildFlag;
       isParent := isParentFlag;
       location := loc;
       message := messageText;
       messageWithStep := messageWithStepText;
       state := cfl_state cFLoc;
       stepId := cfl_step cFLoc;
       traversalId := traversalPathId |}.

Definition createThreadFlow (sarifTF : SarifThreadFlow) (traversalId : string)
    : Promise ThreadFlow :=
  await message <- optional_message (stf_message sarifTF);
  await steps <-
    for_each_push (stf_locations sarifTF)
      (λ stepIndex cFLoc,
         createCodeFlowStep cFLoc
           (stf_locations sarifTF !! (stepIndex + 1))
           (traversalId +:+ "_" +:+ index_to_string stepIndex));
  Resolve {| tf_id := stf_id sarifTF; tf_message := message; steps := steps |}.

Definition createCodeFlow (sarifCF : SarifCodeFlow) (traversalId : string)
    : Promise CodeFlow :=
  await message <- optional_message (scf_message sarifCF);
  await threads <-
    for_each_push (scf_threadFlows sarifCF)
      (λ tFIndex sarifTF,
         createThreadFlow sarifTF
           (traversalId +:+ "_" +:+ index_to_string tFIndex));
  Resolve {| cf_message := message; threads := threads |}.

(** [undefined] in, or an empty array in: [codeFlows] is never assigned
    and the promise resolves to [undefined]. *)
Definition create (sarifCodeFlows : option (list SarifCodeFlow))
    : Promise (option (list CodeFlow)) :=
  match sarifCodeFlows with
  | Some ((_ :: _) as flows) =>
      await codeFlows <-
        for_each_push flows
          (λ cFIndex sarifCF, createCodeFlow sarifCF (index_to_string cFIndex));
      Resolve (Some codeFlows)
  | _ => Resolve None
  end.

End Conversion.

(** *** The remap pass: [tryRemapCodeFlows] *)

(** [codeFlows[cFKey].threads[tFKey]] and [...steps[stepKey]], read from
    the current heap. *)
Definition read_thread (h : list CodeFlow) (cFKey tFKey : nat) : option ThreadFlow :=
  codeFlow ← h !! cFKey; threads codeFlow !! tFKey.

Definition read_step (h : list CodeFlow) (cFKey tFKey stepKey : nat)
    : option CodeFlowStep :=
  thread ← read_thread h cFKey tFKey; steps thread !! stepKey.

(** [codeFlows[cFKey].threads[tFKey].steps[stepKey].location = location]. *)
Definition write_location (h : list CodeFlow) (cFKey tFKey stepKey : nat)
    (location : LocationRef) : list CodeFlow :=
  alter (λ codeFlow,
           set_threads
             (alter (λ thread,
                       set_steps
                         (alter (set_location location) stepKey (steps thread))
                         thread)
                tFKey (threads codeFlow))
             codeFlow)
    cFKey h.

(** [sarifCodeFlows[cFKey].threadFlows[tFKey].locations[stepKey].location];
    [None] when one of the three array reads is out of range, where
    JavaScript throws on the next property read. *)
Definition sarif_location (sarifCodeFlows : list SarifCodeFlow)
    (cFKey tFKey stepKey : nat) : option SarifLocation :=
  sarifCF ← sarifCodeFlows !! cFKey;
  sarifTF ← scf_threadFlows sarifCF !! tFKey;
  cFLoc ← stf_locations sarifTF !! stepKey;
  Some (cfl_location cFLoc).

(** [step.location !== null && step.location.mapped !== true]. *)
Definition needs_remap (step : CodeFlowStep) : bool :=
  match location step with
  | LocNull => false
  | LocObject l => negb (mapped l)
  end.

(** [for (const k of xs.keys()) { await body(k) }] over the heap: the
    heap survives a rejection. *)
Fixpoint for_keys (keys : list nat)
    (body : nat → list CodeFlow → Promise unit * list CodeFlow)
    (h : list CodeFlow) : Promise unit * list CodeFlow :=
  match keys with
  | [] => (Resolve tt, h)
  | k :: rest =>
      match body k h with
      | (Resolve _, h') => for_keys rest body h'
      | (Reject e, h') => (Reject e, h')
      end
  end.

Section Remap.

Variable LocationCreate : option PhysicalLocation → Promise LocationRef.

(** Lines 47-53, the body of the innermost loop. *)
Definition remap_step (sarifCodeFlows : list SarifCodeFlow)
    (cFKey tFKey stepKey : nat) (h : list CodeFlow)
    : Promise unit * list CodeFlow :=
  match read_step h cFKey tFKey stepKey with
  | Some step =>
      if needs_remap step then
        match sarif_location sarifCodeFlows cFKey tFKey stepKey with
        | Some sarifLoc =>
            match LocationCreate (sl_physicalLocation sarifLoc) with
            | Resolve location =>
                (Resolve tt, write_location h cFKey tFKey stepKey location)
            | Reject e => (Reject e, h)
            end
        | None => (Reject TypeError, h)
        end
      else (Resolve tt, h)
  | None => (Reject TypeError, h)
  end.

(** Lines 45-54. *)
Definition remap_thread (sarifCodeFlows : list SarifCodeFlow)
    (cFKey tFKey : nat) (h : list CodeFlow) : Promise unit * list CodeFlow :=
  match read_thread h cFKey tFKey with
  | Some thread =>
      for_keys (seq 0 (length (steps thread)))
        (remap_step sarifCodeFlows cFKey tFKey) h
  | None => (Reject TypeError, h)
  end.

(** Lines 43-55. *)
Definition remap_codeFlow (sarifCodeFlows : list SarifCodeFlow)
    (cFKey : nat) (h : list CodeFlow) : Promise unit * list CodeFlow :=
  match h !! cFKey with
  | Some codeFlow =>
      for_keys (seq 0 (length (threads codeFlow)))
        (remap_thread sarifCodeFlows cFKey) h
  | None => (Reject TypeError, h)
  end.

(** The promise the call returns, and the tree as the call leaves it. *)
Definition tryRemapCodeFlows (codeFlows : list CodeFlow)
    (sarifCodeFlows : list SarifCodeFlow) : Promise unit * list CodeFlow :=
  for_keys (seq 0 (length codeFlows)) (remap_codeFlow sarifCodeFlows) codeFlows.

End Remap.

End CodeFlows.

Import CodeFlows.

(* ================================================================== *)
(** ** The same traversals by recursion on the data                    *)
(* ================================================================== *)

(** The loops above walk index lists and read the arrays by index. The
    proofs go through these structurally recursive forms, each proved
    equal to its loop further down. *)

(** [for_each_push] on the elements from index [i] on. *)
Fixpoint convert_from {A B : Type} (f : nat → A → Promise B) (i : nat)
    (xs : list A) : Promise (list B) :=
  match xs with
  | [] => Resolve []
  | x :: rest =>
      await y <- f i x;
      await ys <- convert_from f (S i) rest;
      Resolve (y :: ys)
  end.

Section RemapByRecursion.

Variable LocationCreate : option PhysicalLocation → Promise LocationRef.

(** The innermost loop on the steps from index [stepKey] on;
    [sarifLocs k] is the raw location the loop reads for step [k]. *)
Fixpoint remap_steps_from (sarifLocs : nat → option SarifLocation)
    (stepKey : nat) (steps : list CodeFlowStep)
    : Promise unit * list CodeFlowStep :=
  match steps with
  | [] => (Resolve tt, [])
  | step :: rest =>
      if needs_remap step then
        match sarifLocs stepKey with
        | Some sarifLoc =>
            match LocationCreate (sl_physicalLocation sarifLoc) with
            | Resolve location =>
                let '(p, rest') := remap_steps_from sarifLocs (S stepKey) rest in
                (p, set_location location step :: rest')
            | Reject e => (Reject e, step :: rest)
            end
        | None => (Reject TypeError, step :: rest)
        end
      else
        let '(p, rest') := remap_steps_from sarifLocs (S stepKey) rest in
        (p, step :: rest')
  end.

Fixpoint remap_threads_from (sarifLocs : nat → nat → option SarifLocation)
    (tFKey : nat) (threads : list ThreadFlow)
    : Promise unit * list ThreadFlow :=
  match threads with
  | [] => (Resolve tt, [])
  | thread :: rest =>
      match remap_steps_from (sarifLocs tFKey) 0 (steps thread) with
      | (Resolve _, steps') =>
          let '(p, rest') := remap_threads_from sarifLocs (S tFKey) rest in
          (p, set_steps steps' thread :: rest')
      | (Reject e, steps') => (Reject e, set_steps steps' thread :: rest)
      end
  end.

Fixpoint remap_flows_from (sarifLocs : nat → nat → nat → option SarifLocation)
    (cFKey : nat) (codeFlows : list CodeFlow)
    : Promise unit * list CodeFlow :=
  match codeFlows with
  | [] => (Resolve tt, [])
  | codeFlow :: rest =>
      match remap_threads_from (sarifLocs cFKey) 0 (threads codeFlow) with
      | (Resolve _, threads') =>
          let '(p, rest') := remap_flows_from sarifLocs (S cFKey) rest in
          (p, set_threads threads' codeFlow :: rest')
      | (Reject e, threads') => (Reject e, set_threads threads' codeFlow :: rest)
      end
  end.

End RemapByRecursion.

(** The heap around one code flow, and around one thread of it: the
    flows before and after, and the threads before and after, stay as
    they are while the loops work on [threads'] and on [steps']. *)
Definition with_threads (before : list CodeFlow) (codeFlow : CodeFlow)
    (after : list CodeFlow) (threads' : list ThreadFlow) : list CodeFlow :=
  before ++ set_threads threads' codeFlow :: after.

Definition with_steps (before : list CodeFlow) (codeFlow : CodeFlow)
    (after : list CodeFlow) (tbefore : list ThreadFlow) (thread : ThreadFlow)
    (tafter : list ThreadFlow) (steps' : list CodeFlowStep) : list CodeFlow :=
  with_threads before codeFlow after (tbefore ++ set_steps steps' thread :: tafter).

(* ================================================================== *)
(** ** Vocabulary of the statements                                    *)
(* ================================================================== *)

(** The traversal id the specification gives the step at flow [i],
    thread [j], step [k]. *)
Definition traversal_id (i j k : nat) : string :=
  index_to_string i +:+ "_" +:+ index_to_string j +:+ "_" +:+ index_to_string k.

(** No underscore occurs in the string. *)
Fixpoint underscore_free (s : string) : Prop :=
  match s with
  | EmptyString => True
  | String ch rest => ch ≠ "_"%char ∧ underscore_free rest
  end.

(** [create] gets as far as calling the resolver for the step at flow
    [i], thread [j], step [k]: everything the call does before that has
    resolved, namely the flows before [i], the message of flow [i], its
    threads before [j], the message of thread [j] and the resolver calls
    for its steps before [k]. *)
Definition resolver_reached
    (parseSarifMessage : MessageField → option Message)
    (LocationCreate : option PhysicalLocation → Promise LocationRef)
    (ExplorerCallbackCommand : string)
    (sarifCodeFlows : list SarifCodeFlow) (i j k : nat) : Prop :=
  ∃ sarifCF sarifTF,
    sarifCodeFlows !! i = Some sarifCF
    ∧ scf_threadFlows sarifCF !! j = Some sarifTF
    ∧ (∀ i' sarifCF', i' < i → sarifCodeFlows !! i' = Some sarifCF' →
         ∃ codeFlow,
           createCodeFlow parseSarifMessage LocationCreate
             ExplorerCallbackCommand sarifCF' (index_to_string i')
           = Resolve codeFlow)
    ∧ (∃ m, optional_message parseSarifMessage (scf_message sarifCF) = Resolve m)
    ∧ (∀ j' sarifTF', j' < j → scf_threadFlows sarifCF !! j' = Some sarifTF' →
         ∃ thread,
           createThreadFlow parseSarifMessage LocationCreate
             ExplorerCallbackCommand sarifTF'
             (index_to_string i +:+ "_" +:+ index_to_string j')
           = Resolve thread)
    ∧ (∃ m, optional_message parseSarifMessage (stf_message sarifTF) = Resolve m)
    ∧ (∀ k' cFLoc', k' < k → stf_locations sarifTF !! k' = Some cFLoc' →
         ∃ loc,
           LocationCreate (sl_physicalLocation (cfl_location cFLoc'))
           = Resolve loc).

(** Every field of the tree except the steps' [location]. *)
Definition erase_step (s : CodeFlowStep) : CodeFlowStep := set_location LocNull s.

Definition erase_thread (t : ThreadFlow) : ThreadFlow :=
  set_steps (erase_step <$> steps t) t.

Definition erase_flow (cf : CodeFlow) : CodeFlow :=
  set_threads (erase_thread <$> threads cf) cf.

Definition erase_locations (h : list CodeFlow) : list CodeFlow := erase_flow <$> h.

(** The step read at an index after a remap pass, against the step read
    there before it: a step that needs no remap is the same step; in a
    pass that resolved, a step that needed one has as its location the
    resolver's answer for the raw location at its index. *)
Definition remapped
    (LocationCreate : option PhysicalLocation → Promise LocationRef)
    (p : Promise unit) (sarifLoc : option SarifLocation)
    (before : CodeFlowStep) (after : option CodeFlowStep) : Prop :=
  (needs_remap before = false → after = Some before)
  ∧ (needs_remap before = true → p = Resolve tt →
       ∃ raw loc, sarifLoc = Some raw
         ∧ LocationCreate (sl_physicalLocation raw) = Resolve loc
         ∧ after = Some (set_location loc before)).

(** The processed tree has the index structure of the raw array. *)
Definition same_shape (codeFlows : list CodeFlow)
    (sarifCodeFlows : list SarifCodeFlow) : Prop :=
  Forall2
    (λ codeFlow sarifCF,
       Forall2
         (λ thread sarifTF, length (steps thread) = length (stf_locations sarifTF))
         (threads codeFlow) (scf_threadFlows sarifCF))
    codeFlows sarifCodeFlows.

(* ================================================================== *)
(** ** Sample collaborators and inputs                                 *)
(* ================================================================== *)

(** A parser in the manner of the extension's: the text of a message
    that has one, nothing otherwise. *)
Definition sample_parser (m : MessageField) : option Message :=
  match m with
  | MsgObject {| sm_text := Some t |} => Some {| text := t |}
  | _ => None
  end.

(** A parser that answers every value, with the empty text where the
    message has none. *)
Definition lenient_parser (m : MessageField) : option Message :=
  match m with
  | MsgObject {| sm_text := Some t |} => Some {| text := t |}
  | _ => Some {| text := "" |}
  end.

(** A resolver: no descriptor gives [null]; ["broken.c"] is rejected;
    files under ["gone/"] are not mapped; every other file is mapped. *)
Definition sample_resolver (d : option PhysicalLocation) : Promise LocationRef :=
  match d with
  | None => Resolve LocNull
  | Some pl =>
      if String.eqb (pl_uri pl) "broken.c"
      then Reject (ResolverError "cannot read broken.c")
      else Resolve (LocObject
             {| mapped := negb (String.prefix "gone/" (pl_uri pl));
                uri := pl_uri pl |})
  end.

(** The resolver after the user has pointed the viewer at the files
    under ["gone/"]: everything it is asked about is mapped. *)
Definition later_resolver (d : option PhysicalLocation) : Promise LocationRef :=
  match d with
  | None => Resolve LocNull
  | Some pl => Resolve (LocObject {| mapped := true; uri := pl_uri pl |})
  end.

Definition sample_command : string := "extension.sarif.ExplorerCallback".

Definition msg (t : string) : MessageField :=
  MsgObject {| sm_text := Some t; sm_messageId := None |}.

Definition loc_at (file : string) (line : Z) (m : MessageField)
    (level : option Z) (ordinal : option JsNumber) : CodeFlowLocation :=
  {| cfl_location :=
       {| sl_physicalLocation := Some {| pl_uri := file; pl_startLine := line |};
          sl_message := m |};
     cfl_nestingLevel := level;
     cfl_importance := None;
     cfl_step := ordinal;
     cfl_state := None |}.

Definition enter_location : CodeFlowLocation :=
  loc_at "a.c" 3 (msg "enter") (Some 0%Z) (Some (SafeInteger 1 eq_refl)).

Definition callee_location : CodeFlowLocation :=
  loc_at "gone/b.c" 7 MsgUndefined (Some 1%Z) (Some (SafeInteger 2 eq_refl)).

Definition return_location : CodeFlowLocation :=
  loc_at "a.c" 9 MsgUndefined (Some 1%Z) None.

(** An ordinal beyond the safe integers, [10^21], which JavaScript
    prints in exponent form. *)
Definition big_location : CodeFlowLocation :=
  loc_at "a.c" 8 (msg "big") None (Some (OtherNumber "1e+21")).

(** Ordinal 5 and message ["foo"]. *)
Definition foo_location : CodeFlowLocation :=
  loc_at "a.c" 4 (msg "foo") (Some 0%Z) (Some (SafeInteger 5 eq_refl)).

(** Nesting levels 0, 1, 1, 0. *)
Definition sample_thread : SarifThreadFlow :=
  {| stf_id := Some "main";
     stf_message := MsgUndefined;
     stf_locations :=
       [ enter_location; callee_location; return_location; foo_location ] |}.

Definition sample_flow : SarifCodeFlow :=
  {| scf_message := msg "trace"; scf_threadFlows := [sample_thread] |}.

Definition short_thread : SarifThreadFlow :=
  {| stf_id := None;
     stf_message := msg "worker";
     stf_locations := [ loc_at "gone/c.c" 1 MsgUndefined None None ] |}.

Definition sample_flows : list SarifCodeFlow :=
  [ sample_flow;
    {| scf_message := MsgUndefined; scf_threadFlows := [short_thread; sample_thread] |} ].

(** A thread whose second location the sample resolver rejects. *)
Definition broken_thread : SarifThreadFlow :=
  {| stf_id := None;
     stf_message := MsgUndefined;
     stf_locations :=
       [ loc_at "a.c" 1 MsgUndefined None None;
         loc_at "broken.c" 2 MsgUndefined None None;
         loc_at "a.c" 3 MsgUndefined None None ] |}.

Definition broken_flows : list SarifCodeFlow :=
  [ sample_flow;
    {| scf_message := MsgUndefined; scf_threadFlows := [short_thread; broken_thread] |} ].

(** A code flow whose [message] is [null], and one whose [message] is
    the empty object; neither has threads. *)
Definition null_message_flow : SarifCodeFlow :=
  {| scf_message := MsgNull; scf_threadFlows := [] |}.

Definition empty_message_flow : SarifCodeFlow :=
  {| scf_message := MsgObject {| sm_text := None; sm_messageId := None |};
     scf_threadFlows := [] |}.

(** The tree [create] builds from [sample_flows]. *)
Definition sample_tree : list CodeFlow :=
  Eval vm_compute in
    match create sample_parser sample_resolver sample_command (Some sample_flows) with
    | Resolve (Some codeFlows) => codeFlows
    | _ => []
    end.

(* ================================================================== *)
(** ** Vocabulary and samples of the further statements               *)
(* ================================================================== *)

(** A location a remap pass resolves again: an object not marked mapped
    (the guard of line 48, on the location itself). *)
Definition unmapped (loc : LocationRef) : bool :=
  match loc with
  | LocNull => false
  | LocObject l => negb (mapped l)
  end.

(** The message is [undefined], or the parser has a result for it: the
    two ways past lines 70-72 and 95-97 without a [TypeError]. *)
Definition message_parses (parseSarifMessage : MessageField → option Message)
    (m : MessageField) : Prop :=
  m = MsgUndefined ∨ is_Some (parseSarifMessage m).

(** The loops reach the index triple [(i, j, k)] before [(i', j', k')]. *)
Definition visited_before (i j k i' j' k' : nat) : Prop :=
  i < i' ∨ (i = i' ∧ (j < j' ∨ (j = j' ∧ k < k'))).

(** The raw location at flow [i], thread [j], step [k]:
    [sarifCodeFlows[i].threadFlows[j].locations[k]]. *)
Definition raw_location (sarifCodeFlows : list SarifCodeFlow) (i j k : nat)
    : option CodeFlowLocation :=
  sarifCF ← sarifCodeFlows !! i;
  sarifTF ← scf_threadFlows sarifCF !! j;
  stf_locations sarifTF !! k.

(** The raw thread at flow [i], thread [j]. *)
Definition raw_thread (sarifCodeFlows : list SarifCodeFlow) (i j : nat)
    : option SarifThreadFlow :=
  sarifCF ← sarifCodeFlows !! i; scf_threadFlows sarifCF !! j.

(** The remap of a step is rejected with [e]: no raw location at its
    indices (a [TypeError]), or a descriptor the resolver rejects. *)
Definition remap_fails
    (LocationCreate : option PhysicalLocation → Promise LocationRef)
    (sarifLoc : option SarifLocation) (e : JsError) : Prop :=
  (sarifLoc = None ∧ e = TypeError)
  ∨ ∃ raw, sarifLoc = Some raw
      ∧ LocationCreate (sl_physicalLocation raw) = Reject e.

(** The tree [create] builds from [sample_flows] once every file is
    found. *)
Definition later_tree : list CodeFlow :=
  Eval vm_compute in
    match create sample_parser later_resolver sample_command (Some sample_flows) with
    | Resolve (Some codeFlows) => codeFlows
    | _ => []
    end.

(** One flow, one thread, two locations in files both sample resolvers
    map. *)
Definition plain_flows : list SarifCodeFlow :=
  [ {| scf_message := MsgUndefined;
       scf_threadFlows :=
         [ {| stf_id := None;
              stf_message := MsgUndefined;
              stf_locations := [ enter_location; foo_location ] |} ] |} ].

(* ================================================================== *)
(** ** Proof tactics                                                   *)
(* ================================================================== *)

(** Invert [then_ p f = Resolve b]. *)
Ltac inv_then H :=
  let a := fresh "r" in
  let Ha := fresh "Hr" in
  let q := fresh "q" in
  match type of H with
  | then_ ?p ?f = Resolve ?b =>
      remember p as q eqn:Ha in H;
      destruct q as [a|]; [simpl in H; symmetry in Ha | discriminate H]
  end.

(** Close one case of the nesting-level comparison. *)
Ltac flags_case :=
  repeat split;
  repeat match goal with
         | |- _ → _ => intro
         | |- ¬ _ => intro
         | H : _ ∧ _ |- _ => destruct H
         | H : _ ∨ _ |- _ => destruct H
         | H : ∃ _, _ |- _ => destruct H
         end;
  simplify_eq; try done; try lia;
  try (left; eexists _, _; split; [reflexivity | split; [reflexivity | lia]]);
  eauto 10.

(* ================================================================== *)
(** ** Promises and the push loop                                      *)
(* ================================================================== *)

(** The loop, started with [out] already holding the results of the
    elements before [rest]. *)
Lemma for_index_push {A B : Type} (f : nat → A → Promise B)
    (pre rest : list A) (out : list B) :
  for_index (seq (length pre) (length rest))
    (λ i out,
       match (pre ++ rest) !! i with
       | Some x => await y <- f i x; Resolve (out ++ [y])
       | None => Reject TypeError
       end)
    out
  = await ys <- convert_from f (length pre) rest; Resolve (out ++ ys).
Proof.
  revert pre out. induction rest as [|x rest IH]; intros pre out; simpl.
  - by rewrite app_nil_r.
  - rewrite lookup_app_r, Nat.sub_diag by lia. simpl.
    destruct (f (length pre) x) as [y|e]; simpl; [|done].
    specialize (IH (pre ++ [x]) (out ++ [y])).
    rewrite <- app_assoc, length_app, Nat.add_1_r in IH. simpl in IH.
    rewrite IH.
    destruct (convert_from f (S (length pre)) rest); simpl; [|done].
    by rewrite <- app_assoc.
Qed.

Lemma for_each_push_convert {A B : Type} (xs : list A) (f : nat → A → Promise B) :
  for_each_push xs f = convert_from f 0 xs.
Proof.
  unfold for_each_push.
  pose proof (for_index_push f [] xs []) as H. simpl in H. rewrite H.
  by destruct (convert_from f 0 xs).
Qed.

(** A resolved loop converted every element, in order. *)
Lemma convert_from_Resolve {A B : Type} (f : nat → A → Promise B) (i : nat)
    (xs : list A) (ys : list B) :
  convert_from f i xs = Resolve ys →
  length ys = length xs ∧
  ∀ k, match xs !! k with
       | Some x => ∃ y, ys !! k = Some y ∧ f (i + k) x = Resolve y
       | None => ys !! k = None
       end.
Proof.
  revert i ys. induction xs as [|x xs IH]; intros i ys H; simpl in H.
  - injection H as <-. split; [done|]. intros k. by rewrite !lookup_nil.
  - inv_then H. inv_then H. injection H as <-.
    destruct (IH _ _ Hr0) as [Hlen Hk]. split; [simpl; lia|].
    intros [|k]; simpl.
    + rewrite Nat.add_0_r. eauto.
    + specialize (Hk k). rewrite Nat.add_succ_r. apply Hk.
Qed.

Lemma convert_from_lookup {A B : Type} (f : nat → A → Promise B) (i : nat)
    (xs : list A) (ys : list B) (k : nat) (y : B) :
  convert_from f i xs = Resolve ys → ys !! k = Some y →
  ∃ x, xs !! k = Some x ∧ f (i + k) x = Resolve y.
Proof.
  intros H Hy. destruct (convert_from_Resolve _ _ _ _ H) as [_ Hk].
  specialize (Hk k). destruct (xs !! k) as [x|].
  - destruct Hk as (y' & Hy' & Hf). exists x. split; [done|]. congruence.
  - congruence.
Qed.

(** The loop resolves when every call does. *)
Lemma convert_from_total {A B : Type} (f : nat → A → Promise B) (i : nat)
    (xs : list A) :
  (∀ k x, xs !! k = Some x → ∃ y, f (i + k) x = Resolve y) →
  ∃ ys, convert_from f i xs = Resolve ys.
Proof.
  revert i. induction xs as [|x xs IH]; intros i H; simpl; [eauto|].
  destruct (H 0 x eq_refl) as [y Hy]. rewrite Nat.add_0_r in Hy. rewrite Hy. simpl.
  destruct (IH (S i)) as [ys Hys].
  { intros k x' Hx'. specialize (H (S k) x' Hx'). by rewrite Nat.add_succ_r in H. }
  rewrite Hys. simpl. eauto.
Qed.

(** One rejected call rejects the loop. *)
Lemma convert_from_Reject {A B : Type} (f : nat → A → Promise B) (i : nat)
    (xs : list A) (k : nat) (x : A) (e : JsError) :
  xs !! k = Some x → f (i + k) x = Reject e →
  ∃ e', convert_from f i xs = Reject e'.
Proof.
  revert i k. induction xs as [|x0 xs IH]; intros i k Hx Hf; [done|].
  simpl. destruct k as [|k]; simpl in Hx.
  - injection Hx as ->. rewrite Nat.add_0_r in Hf. rewrite Hf. simpl. eauto.
  - destruct (f i x0) as [y|e0]; simpl; [|eauto].
    rewrite Nat.add_succ_r in Hf.
    destruct (IH (S i) k Hx Hf) as [e' He']. rewrite He'. simpl. eauto.
Qed.

(** The loop is rejected with the error of its first rejected call. *)
Lemma convert_from_first_Reject {A B : Type} (f : nat → A → Promise B) (i : nat)
    (xs : list A) (k : nat) (x : A) (e : JsError) :
  xs !! k = Some x → f (i + k) x = Reject e →
  (∀ k' x', k' < k → xs !! k' = Some x' → ∃ y, f (i + k') x' = Resolve y) →
  convert_from f i xs = Reject e.
Proof.
  revert i k. induction xs as [|x0 xs IH]; intros i k Hx Hf Hbefore; [done|].
  simpl. destruct k as [|k]; simpl in Hx.
  - injection Hx as ->. rewrite Nat.add_0_r in Hf. by rewrite Hf.
  - destruct (Hbefore 0 x0) as [y Hy]; [lia|done|].
    rewrite Nat.add_0_r in Hy. rewrite Hy. simpl.
    rewrite Nat.add_succ_r in Hf.
    rewrite (IH (S i) k Hx Hf); [done|].
    intros k' x' Hlt Hx'. specialize (Hbefore (S k') x').
    rewrite Nat.add_succ_r in Hbefore. apply Hbefore; [lia|done].
Qed.

(** The results of a resolved loop relate to the elements pairwise. *)
Lemma convert_from_Forall2 {A B : Type} (f : nat → A → Promise B) (i : nat)
    (xs : list A) (ys : list B) (P : B → A → Prop) :
  convert_from f i xs = Resolve ys →
  (∀ k x y, xs !! k = Some x → f (i + k) x = Resolve y → P y x) →
  Forall2 P ys xs.
Proof.
  intros H HP. destruct (convert_from_Resolve _ _ _ _ H) as [Hlen Hk].
  apply Forall2_same_length_lookup_2; [done|].
  intros k y x Hy Hx. specialize (Hk k). rewrite Hx in Hk.
  destruct Hk as (y' & Hy' & Hf). simplify_eq. eauto.
Qed.

(* ================================================================== *)
(** ** Index strings                                                   *)
(* ================================================================== *)

Lemma append_String (ch : Ascii.ascii) (a b : string) :
  String ch a +:+ b = String ch (a +:+ b).
Proof. reflexivity. Qed.

Lemma append_empty (b : string) : "" +:+ b = b.
Proof. reflexivity. Qed.

Lemma append_assoc (a b c : string) : (a +:+ b) +:+ c = a +:+ (b +:+ c).
Proof.
  induction a as [|ch a IH]; [done|].
  by rewrite !append_String, IH.
Qed.

Lemma string_of_uint_underscore_free (d : Decimal.uint) :
  underscore_free (NilEmpty.string_of_uint d).
Proof. induction d; simpl; (split; [discriminate | done]) || done. Qed.

Lemma index_to_string_underscore_free (n : nat) :
  underscore_free (index_to_string n).
Proof. apply string_of_uint_underscore_free. Qed.

Lemma index_to_string_inj (n m : nat) :
  index_to_string n = index_to_string m → n = m.
Proof.
  unfold index_to_string. intros H.
  apply Unsigned.to_uint_inj.
  assert (Some (Nat.to_uint n) = Some (Nat.to_uint m)) as [= ?]; [|done].
  by rewrite <- !NilEmpty.usu, H.
Qed.

(** Two underscore-free heads followed by an underscore split a string
    in one way only. *)
Lemma underscore_split (a b c d : string) :
  underscore_free a → underscore_free c →
  a +:+ "_" +:+ b = c +:+ "_" +:+ d → a = c ∧ b = d.
Proof.
  revert c. induction a as [|x a IH]; intros [|y c] Ha Hc H;
    rewrite ?append_String, ?append_empty, ?append_String in H; simpl in Ha, Hc.
  - by injection H as ->.
  - injection H as <- _. by destruct Hc.
  - injection H as -> _. by destruct Ha.
  - injection H as -> H. destruct Ha as [_ Ha], Hc as [_ Hc].
    destruct (IH c Ha Hc H) as [-> ->]. done.
Qed.

Lemma traversal_id_nested (i j k : nat) :
  (index_to_string i +:+ "_" +:+ index_to_string j) +:+ "_" +:+ index_to_string k
  = traversal_id i j k.
Proof. unfold traversal_id. by rewrite append_assoc. Qed.

Lemma traversal_id_inj (i j k i' j' k' : nat) :
  traversal_id i j k = traversal_id i' j' k' → i = i' ∧ j = j' ∧ k = k'.
Proof.
  unfold traversal_id. intros H.
  apply underscore_split in H as [Hi H];
    [|apply index_to_string_underscore_free..].
  apply underscore_split in H as [Hj Hk];
    [|apply index_to_string_underscore_free..].
  by repeat split; apply index_to_string_inj.
Qed.

(* ================================================================== *)
(** ** The converters                                                  *)
(* ================================================================== *)

Section ConversionFacts.

Variable parseSarifMessage : MessageField → option Message.
Variable LocationCreate : option PhysicalLocation → Promise LocationRef.
Variable ExplorerCallbackCommand : string.

Local Abbreviation createCodeFlowStep :=
  (createCodeFlowStep parseSarifMessage LocationCreate ExplorerCallbackCommand).
Local Abbreviation createThreadFlow :=
  (createThreadFlow parseSarifMessage LocationCreate ExplorerCallbackCommand).
Local Abbreviation createCodeFlow :=
  (createCodeFlow parseSarifMessage LocationCreate ExplorerCallbackCommand).
Local Abbreviation create :=
  (create parseSarifMessage LocationCreate ExplorerCallbackCommand).
Local Abbreviation optional_message := (optional_message parseSarifMessage).
Local Abbreviation step_message := (step_message parseSarifMessage).

(** What a resolved step conversion returned, field by field. *)
Lemma createCodeFlowStep_Resolve cFLoc nextCFLoc tid step :
  createCodeFlowStep cFLoc nextCFLoc tid = Resolve step →
  LocationCreate (sl_physicalLocation (cfl_location cFLoc)) = Resolve (location step)
  ∧ isParent step = (nesting_flags cFLoc nextCFLoc).1
  ∧ isLastChild step = (nesting_flags cFLoc nextCFLoc).2
  ∧ message step = step_message cFLoc (isLastChild step)
  ∧ messageWithStep step =
      match cfl_step cFLoc with
      | Some n => "Step " +:+ number_to_string n +:+ ": " +:+ message step
      | None => message step
      end
  ∧ traversalId step = tid
  ∧ title (codeLensCommand step) = messageWithStep step
  ∧ (treeid_step <$> arguments (codeLensCommand step)) = [tid].
Proof.
  unfold CodeFlows.createCodeFlowStep. intros H. inv_then H.
  destruct (nesting_flags cFLoc nextCFLoc) as [p c].
  injection H as <-. simpl. by rewrite Hr.
Qed.

(** A step conversion is rejected only by the resolver, with its error. *)
Lemma createCodeFlowStep_Reject cFLoc nextCFLoc tid e :
  createCodeFlowStep cFLoc nextCFLoc tid = Reject e ↔
  LocationCreate (sl_physicalLocation (cfl_location cFLoc)) = Reject e.
Proof.
  unfold CodeFlows.createCodeFlowStep.
  destruct (LocationCreate _) as [loc|e']; simpl.
  - destruct (nesting_flags cFLoc nextCFLoc). split; discriminate.
  - split; intros [= ->]; reflexivity.
Qed.

Lemma createCodeFlowStep_total cFLoc nextCFLoc tid loc :
  LocationCreate (sl_physicalLocation (cfl_location cFLoc)) = Resolve loc →
  ∃ step, createCodeFlowStep cFLoc nextCFLoc tid = Resolve step.
Proof.
  unfold CodeFlows.createCodeFlowStep. intros ->. simpl.
  destruct (nesting_flags cFLoc nextCFLoc). eauto.
Qed.


(** The three loops, read off a resolved result. *)
Lemma createThreadFlow_Resolve sarifTF tid thread :
  createThreadFlow sarifTF tid = Resolve thread →
  optional_message (stf_message sarifTF) = Resolve (tf_message thread)
  ∧ tf_id thread = stf_id sarifTF
  ∧ convert_from
      (λ stepIndex cFLoc,
         createCodeFlowStep cFLoc (stf_locations sarifTF !! (stepIndex + 1))
           (tid +:+ "_" +:+ index_to_string stepIndex))
      0 (stf_locations sarifTF)
    = Resolve (steps thread).
Proof.
  unfold CodeFlows.createThreadFlow. rewrite for_each_push_convert.
  intros H. inv_then H. inv_then H. by injection H as <-.
Qed.

Lemma createCodeFlow_Resolve sarifCF tid codeFlow :
  createCodeFlow sarifCF tid = Resolve codeFlow →
  optional_message (scf_message sarifCF) = Resolve (cf_message codeFlow)
  ∧ convert_from
      (λ tFIndex sarifTF,
         createThreadFlow sarifTF (tid +:+ "_" +:+ index_to_string tFIndex))
      0 (scf_threadFlows sarifCF)
    = Resolve (threads codeFlow).
Proof.
  unfold CodeFlows.createCodeFlow. rewrite for_each_push_convert.
  intros H. inv_then H. inv_then H. by injection H as <-.
Qed.

Lemma create_nonempty flows :
  flows ≠ [] →
  create (Some flows) =
    await codeFlows <-
      convert_from (λ cFIndex sarifCF, createCodeFlow sarifCF (index_to_string cFIndex))
        0 flows;
    Resolve (Some codeFlows).
Proof.
  intros H. destruct flows as [|f flows]; [done|].
  unfold CodeFlows.create. by rewrite for_each_push_convert.
Qed.

Lemma create_Resolve flows codeFlows :
  create (Some flows) = Resolve (Some codeFlows) →
  flows ≠ [] ∧
  convert_from (λ cFIndex sarifCF, createCodeFlow sarifCF (index_to_string cFIndex))
    0 flows = Resolve codeFlows.
Proof.
  destruct flows as [|f flows]; [done|]. intros H. split; [done|].
  rewrite create_nonempty in H by done. inv_then H. by injection H as <-.
Qed.

(** Every step of a converted tree is the conversion of the raw location
    at the same three indices, under the traversal id of those indices. *)
Lemma create_read_step flows codeFlows i j k step :
  create (Some flows) = Resolve (Some codeFlows) →
  read_step codeFlows i j k = Some step →
  ∃ sarifCF sarifTF cFLoc,
    flows !! i = Some sarifCF
    ∧ scf_threadFlows sarifCF !! j = Some sarifTF
    ∧ stf_locations sarifTF !! k = Some cFLoc
    ∧ createCodeFlowStep cFLoc (stf_locations sarifTF !! (k + 1))
        (traversal_id i j k) = Resolve step.
Proof.
  intros Hc Hs. apply create_Resolve in Hc as [_ Hc].
  unfold read_step, read_thread in Hs.
  destruct (codeFlows !! i) as [codeFlow|] eqn:Hi; [|done]. simpl in Hs.
  destruct (threads codeFlow !! j) as [thread|] eqn:Hj; [|done]. simpl in Hs.
  destruct (convert_from_lookup _ _ _ _ _ _ Hc Hi) as (sarifCF & HsarifCF & Hcf).
  apply createCodeFlow_Resolve in Hcf as (_ & Hcf).
  destruct (convert_from_lookup _ _ _ _ _ _ Hcf Hj) as (sarifTF & HsarifTF & Htf).
  apply createThreadFlow_Resolve in Htf as (_ & _ & Htf).
  destruct (convert_from_lookup _ _ _ _ _ _ Htf Hs) as (cFLoc & HcFLoc & Hstep).
  simpl in Hstep. rewrite traversal_id_nested in Hstep.
  exists sarifCF, sarifTF, cFLoc. done.
Qed.

End ConversionFacts.

Section ConversionClaims.

Variable parseSarifMessage : MessageField → option Message.
Variable LocationCreate : option PhysicalLocation → Promise LocationRef.
Variable ExplorerCallbackCommand : string.

Local Abbreviation createCodeFlowStep :=
  (createCodeFlowStep parseSarifMessage LocationCreate ExplorerCallbackCommand).
Local Abbreviation createThreadFlow :=
  (createThreadFlow parseSarifMessage LocationCreate ExplorerCallbackCommand).
Local Abbreviation createCodeFlow :=
  (createCodeFlow parseSarifMessage LocationCreate ExplorerCallbackCommand).
Local Abbreviation create :=
  (create parseSarifMessage LocationCreate ExplorerCallbackCommand).
Local Abbreviation optional_message := (optional_message parseSarifMessage).

(** C1. A step converted with a next raw location: [isParent] holds
    exactly when the current nesting level is below the next one, or is
    undefined while the next one is defined; [isLastChild] holds exactly
    when [isParent] does not and the current level is above the next one,
    or is defined while the next one is undefined; equal levels (both
    undefined included) give neither; and the two never hold together. *)
Theorem createCodeFlowStep_classification cFLoc next tid step :
  createCodeFlowStep cFLoc (Some next) tid = Resolve step →
  (isParent step = true ↔
     (∃ cur nxt, cfl_nestingLevel cFLoc = Some cur
                 ∧ cfl_nestingLevel next = Some nxt ∧ (cur < nxt)%Z)
     ∨ (cfl_nestingLevel cFLoc = None ∧ cfl_nestingLevel next ≠ None))
  ∧ (isLastChild step = true ↔
       isParent step = false
       ∧ ((∃ cur nxt, cfl_nestingLevel cFLoc = Some cur
                      ∧ cfl_nestingLevel next = Some nxt ∧ (cur > nxt)%Z)
          ∨ (cfl_nestingLevel cFLoc ≠ None ∧ cfl_nestingLevel next = None)))
  ∧ (cfl_nestingLevel cFLoc = cfl_nestingLevel next →
       isParent step = false ∧ isLastChild step = false)
  ∧ ¬ (isParent step = true ∧ isLastChild step = true).
Proof.
  intros H. apply createCodeFlowStep_Resolve in H as (_ & -> & -> & _).
  unfold nesting_flags.
  destruct (cfl_nestingLevel cFLoc) as [cur|], (cfl_nestingLevel next) as [nxt|];
    simpl; rewrite ?orb_false_r.
  - destruct (Z.ltb_spec cur nxt) as [Hlt|Hge];
      [|destruct (Z.gtb_spec cur nxt) as [Hgt|Hle]]; simpl;
      flags_case.
  - flags_case.
  - flags_case.
  - flags_case.
Qed.

(** C3. The last step of a converted thread is neither a parent nor a
    last child. *)
Theorem createThreadFlow_last_step sarifTF tid thread step :
  createThreadFlow sarifTF tid = Resolve thread →
  last (steps thread) = Some step →
  isParent step = false ∧ isLastChild step = false.
Proof.
  intros H Hlast. apply createThreadFlow_Resolve in H as (_ & _ & H).
  rewrite last_lookup in Hlast.
  destruct (convert_from_Resolve _ _ _ _ H) as [Hlen _].
  destruct (convert_from_lookup _ _ _ _ _ _ H Hlast) as (cFLoc & HcFLoc & Hstep).
  simpl in Hstep.
  assert (stf_locations sarifTF !! (Init.Nat.pred (length (steps thread)) + 1) = None)
    as Hnone.
  { apply lookup_ge_None. apply lookup_lt_Some in HcFLoc. lia. }
  rewrite Hnone in Hstep.
  by apply createCodeFlowStep_Resolve in Hstep as (_ & -> & -> & _).
Qed.

(** C4. The labels of a converted step: without a parsed text, or with
    an empty one, the message is ["[return call]"] on a last child and
    ["[no description]"] otherwise; a non-empty parsed text is the
    message; [messageWithStep] is the message behind ["Step <ordinal>: "]
    when the raw location has an ordinal and the message alone otherwise. *)
Theorem createCodeFlowStep_labels cFLoc nextCFLoc tid step :
  createCodeFlowStep cFLoc nextCFLoc tid = Resolve step →
  ((parseSarifMessage (sl_message (cfl_location cFLoc)) = None
    ∨ (∃ parsed, parseSarifMessage (sl_message (cfl_location cFLoc)) = Some parsed
                 ∧ text parsed = "")) →
   message step = if isLastChild step then "[return call]" else "[no description]")
  ∧ (∀ parsed, parseSarifMessage (sl_message (cfl_location cFLoc)) = Some parsed →
       text parsed ≠ "" → message step = text parsed)
  ∧ messageWithStep step =
      match cfl_step cFLoc with
      | Some ordinal => "Step " +:+ number_to_string ordinal +:+ ": " +:+ message step
      | None => message step
      end.
Proof.
  intros H.
  apply createCodeFlowStep_Resolve in H as (_ & _ & _ & Hm & Hws & _).
  split; [|split; [|done]].
  - intros [Hnone | (parsed & Hsome & Hempty)]; rewrite Hm; unfold step_message.
    + by rewrite Hnone.
    + by rewrite Hsome, Hempty.
  - intros parsed Hsome Hne. rewrite Hm. unfold step_message. rewrite Hsome.
    apply String.eqb_neq in Hne. by rewrite Hne.
Qed.

(** C2. [create] resolves to [undefined] on [undefined] and on the
    empty array. On a non-empty array a resolved call returns a sequence
    of the length of the input whose element [i] is the conversion of
    raw flow [i] under the id prefix ["i"]; and the call does resolve
    when the conversion of every flow does. *)
Theorem create_result :
  create None = Resolve None
  ∧ create (Some []) = Resolve None
  ∧ ∀ flows, flows ≠ [] →
      (∀ result, create (Some flows) = Resolve result →
         ∃ codeFlows,
           result = Some codeFlows
           ∧ length codeFlows = length flows
           ∧ ∀ i sarifCF, flows !! i = Some sarifCF →
               ∃ codeFlow, codeFlows !! i = Some codeFlow
                 ∧ createCodeFlow sarifCF (index_to_string i) = Resolve codeFlow)
      ∧ ((∀ i sarifCF, flows !! i = Some sarifCF →
            ∃ codeFlow, createCodeFlow sarifCF (index_to_string i) = Resolve codeFlow) →
         ∃ codeFlows, create (Some flows) = Resolve (Some codeFlows)).
Proof.
  split; [done|]. split; [done|]. intros flows Hne.
  rewrite create_nonempty by done. split.
  - intros result H. inv_then H. injection H as <-. exists r.
    destruct (convert_from_Resolve _ _ _ _ Hr) as [Hlen Hk].
    split; [done|]. split; [done|].
    intros i sarifCF Hi. specialize (Hk i). by rewrite Hi in Hk.
  - intros Hall.
    destruct (convert_from_total
                (λ cFIndex sarifCF, createCodeFlow sarifCF (index_to_string cFIndex))
                0 flows) as [codeFlows Hc]; [done|].
    rewrite Hc. simpl. eauto.
Qed.

(** C7, as the code has it. An [undefined] message leaves the converted
    message [undefined]. Every other value, an object (an empty one too)
    and [null], goes to the parser: the converted message is the text of
    what the parser returns, and the conversion is rejected with a
    [TypeError] when the parser returns nothing. The same holds for
    threads. *)
Theorem converted_message_guard sarifCF sarifTF tid :
  (scf_message sarifCF = MsgUndefined →
     ∀ codeFlow, createCodeFlow sarifCF tid = Resolve codeFlow →
       cf_message codeFlow = None)
  ∧ (scf_message sarifCF ≠ MsgUndefined →
       (∀ codeFlow, createCodeFlow sarifCF tid = Resolve codeFlow →
          ∃ parsed, parseSarifMessage (scf_message sarifCF) = Some parsed
                    ∧ cf_message codeFlow = Some (text parsed))
       ∧ (parseSarifMessage (scf_message sarifCF) = None →
            createCodeFlow sarifCF tid = Reject TypeError))
  ∧ (stf_message sarifTF = MsgUndefined →
       ∀ thread, createThreadFlow sarifTF tid = Resolve thread →
         tf_message thread = None)
  ∧ (stf_message sarifTF ≠ MsgUndefined →
       (∀ thread, createThreadFlow sarifTF tid = Resolve thread →
          ∃ parsed, parseSarifMessage (stf_message sarifTF) = Some parsed
                    ∧ tf_message thread = Some (text parsed))
       ∧ (parseSarifMessage (stf_message sarifTF) = None →
            createThreadFlow sarifTF tid = Reject TypeError)).
Proof.
  assert (∀ m, m = MsgUndefined → ∀ o, optional_message m = Resolve o → o = None)
    as Hundef.
  { intros m -> o [= <-]. done. }
  assert (∀ m, m ≠ MsgUndefined → ∀ o, optional_message m = Resolve o →
            ∃ parsed, parseSarifMessage m = Some parsed ∧ o = Some (text parsed))
    as Hdef.
  { intros m Hm o. unfold CodeFlows.optional_message, parsed_text.
    destruct m; [done|..]; destruct (parseSarifMessage _) as [parsed|];
      simpl; intros [= <-]; eauto. }
  assert (∀ m, m ≠ MsgUndefined → parseSarifMessage m = None →
            optional_message m = Reject TypeError) as Hthrow.
  { intros m Hm Hp. unfold CodeFlows.optional_message, parsed_text.
    destruct m; [done|..]; by rewrite Hp. }
  split; [|split; [|split]].
  - intros Hm codeFlow H. apply createCodeFlow_Resolve in H as [H _]. eauto.
  - intros Hm. split.
    + intros codeFlow H. apply createCodeFlow_Resolve in H as [H _]. eauto.
    + intros Hp. unfold CodeFlows.createCodeFlow. by rewrite Hthrow.
  - intros Hm thread H. apply createThreadFlow_Resolve in H as [H _]. eauto.
  - intros Hm. split.
    + intros thread H. apply createThreadFlow_Resolve in H as [H _]. eauto.
    + intros Hp. unfold CodeFlows.createThreadFlow. by rewrite Hthrow.
Qed.

End ConversionClaims.

Section ConversionFailure.

Variable parseSarifMessage : MessageField → option Message.
Variable LocationCreate : option PhysicalLocation → Promise LocationRef.
Variable ExplorerCallbackCommand : string.

Local Abbreviation createCodeFlowStep :=
  (createCodeFlowStep parseSarifMessage LocationCreate ExplorerCallbackCommand).
Local Abbreviation createThreadFlow :=
  (createThreadFlow parseSarifMessage LocationCreate ExplorerCallbackCommand).
Local Abbreviation createCodeFlow :=
  (createCodeFlow parseSarifMessage LocationCreate ExplorerCallbackCommand).
Local Abbreviation create :=
  (create parseSarifMessage LocationCreate ExplorerCallbackCommand).
Local Abbreviation optional_message := (optional_message parseSarifMessage).
Local Abbreviation resolver_reached :=
  (resolver_reached parseSarifMessage LocationCreate ExplorerCallbackCommand).

(** A rejected resolver call rejects the thread, the flow and the call. *)
Lemma createThreadFlow_Reject sarifTF tid k cFLoc e :
  stf_locations sarifTF !! k = Some cFLoc →
  LocationCreate (sl_physicalLocation (cfl_location cFLoc)) = Reject e →
  ∃ e', createThreadFlow sarifTF tid = Reject e'.
Proof.
  intros Hk He. unfold CodeFlows.createThreadFlow. rewrite for_each_push_convert.
  destruct (optional_message _) as [m|e0]; simpl; [|eauto].
  edestruct (convert_from_Reject
               (λ stepIndex cFLoc,
                  createCodeFlowStep cFLoc (stf_locations sarifTF !! (stepIndex + 1))
                    (tid +:+ "_" +:+ index_to_string stepIndex))
               0 _ k cFLoc e Hk) as [e' He'].
  { by apply createCodeFlowStep_Reject. }
  rewrite He'. simpl. eauto.
Qed.

Lemma createCodeFlow_Reject sarifCF tid j sarifTF e :
  scf_threadFlows sarifCF !! j = Some sarifTF →
  createThreadFlow sarifTF (tid +:+ "_" +:+ index_to_string j) = Reject e →
  ∃ e', createCodeFlow sarifCF tid = Reject e'.
Proof.
  intros Hj He. unfold CodeFlows.createCodeFlow. rewrite for_each_push_convert.
  destruct (optional_message _) as [m|e0]; simpl; [|eauto].
  edestruct (convert_from_Reject
               (λ tFIndex sarifTF,
                  createThreadFlow sarifTF (tid +:+ "_" +:+ index_to_string tFIndex))
               0 _ j sarifTF e Hj) as [e' He']; [done|].
  rewrite He'. simpl. eauto.
Qed.

Lemma create_Reject flows i sarifCF e :
  flows !! i = Some sarifCF →
  createCodeFlow sarifCF (index_to_string i) = Reject e →
  ∃ e', create (Some flows) = Reject e'.
Proof.
  intros Hi He. rewrite create_nonempty by (by intros ->).
  edestruct (convert_from_Reject
               (λ cFIndex sarifCF, createCodeFlow sarifCF (index_to_string cFIndex))
               0 _ i sarifCF e Hi) as [e' He']; [done|].
  rewrite He'. simpl. eauto.
Qed.

(** The first rejected resolver call gives the call its error. *)
Lemma createThreadFlow_first_Reject sarifTF tid k cFLoc e :
  stf_locations sarifTF !! k = Some cFLoc →
  LocationCreate (sl_physicalLocation (cfl_location cFLoc)) = Reject e →
  (∃ m, optional_message (stf_message sarifTF) = Resolve m) →
  (∀ k' cFLoc', k' < k → stf_locations sarifTF !! k' = Some cFLoc' →
     ∃ loc, LocationCreate (sl_physicalLocation (cfl_location cFLoc')) = Resolve loc) →
  createThreadFlow sarifTF tid = Reject e.
Proof.
  intros Hk He [m Hm] Hbefore.
  unfold CodeFlows.createThreadFlow. rewrite for_each_push_convert, Hm. simpl.
  rewrite (convert_from_first_Reject _ 0 _ k cFLoc e); [done..| |].
  - by apply createCodeFlowStep_Reject.
  - intros k' cFLoc' Hlt Hk'. destruct (Hbefore k' cFLoc' Hlt Hk') as [loc Hloc].
    by eapply createCodeFlowStep_total.
Qed.

Lemma createCodeFlow_first_Reject sarifCF tid j sarifTF e :
  scf_threadFlows sarifCF !! j = Some sarifTF →
  createThreadFlow sarifTF (tid +:+ "_" +:+ index_to_string j) = Reject e →
  (∃ m, optional_message (scf_message sarifCF) = Resolve m) →
  (∀ j' sarifTF', j' < j → scf_threadFlows sarifCF !! j' = Some sarifTF' →
     ∃ thread,
       createThreadFlow sarifTF' (tid +:+ "_" +:+ index_to_string j') = Resolve thread) →
  createCodeFlow sarifCF tid = Reject e.
Proof.
  intros Hj He [m Hm] Hbefore.
  unfold CodeFlows.createCodeFlow. rewrite for_each_push_convert, Hm. simpl.
  by rewrite (convert_from_first_Reject _ 0 _ j sarifTF e).
Qed.

Lemma create_first_Reject flows i sarifCF e :
  flows !! i = Some sarifCF →
  createCodeFlow sarifCF (index_to_string i) = Reject e →
  (∀ i' sarifCF', i' < i → flows !! i' = Some sarifCF' →
     ∃ codeFlow, createCodeFlow sarifCF' (index_to_string i') = Resolve codeFlow) →
  create (Some flows) = Reject e.
Proof.
  intros Hi He Hbefore. rewrite create_nonempty by (by intros ->).
  by rewrite (convert_from_first_Reject _ 0 _ i sarifCF e).
Qed.

Lemma sarif_location_Some flows i j k sarifLoc :
  sarif_location flows i j k = Some sarifLoc →
  ∃ sarifCF sarifTF cFLoc,
    flows !! i = Some sarifCF
    ∧ scf_threadFlows sarifCF !! j = Some sarifTF
    ∧ stf_locations sarifTF !! k = Some cFLoc
    ∧ sarifLoc = cfl_location cFLoc.
Proof.
  unfold sarif_location. intros H.
  destruct (flows !! i) as [sarifCF|] eqn:Hi; [|done]. simpl in H.
  destruct (scf_threadFlows sarifCF !! j) as [sarifTF|] eqn:Hj; [|done]. simpl in H.
  destruct (stf_locations sarifTF !! k) as [cFLoc|] eqn:Hk; [|done]. simpl in H.
  injection H as <-. by exists sarifCF, sarifTF, cFLoc.
Qed.

(** C6. When the resolver rejects the descriptor of some step of the
    input, [create] is rejected: it resolves to no code-flow set, whole
    or partial. Its error is the resolver's for that step when the call
    gets as far as that step, that is, when nothing before it rejected. *)
Theorem create_all_or_nothing flows i j k sarifLoc e :
  sarif_location flows i j k = Some sarifLoc →
  LocationCreate (sl_physicalLocation sarifLoc) = Reject e →
  (∃ e', create (Some flows) = Reject e')
  ∧ (∀ result, create (Some flows) ≠ Resolve result)
  ∧ (resolver_reached flows i j k → create (Some flows) = Reject e).
Proof.
  intros Hloc He.
  apply sarif_location_Some in Hloc
    as (sarifCF & sarifTF & cFLoc & Hi & Hj & Hk & ->).
  assert (∃ e', create (Some flows) = Reject e') as [e' He'].
  { destruct (createThreadFlow_Reject sarifTF
                (index_to_string i +:+ "_" +:+ index_to_string j) k cFLoc e Hk He)
      as [e1 He1].
    destruct (createCodeFlow_Reject sarifCF (index_to_string i) j sarifTF e1 Hj He1)
      as [e2 He2].
    by eapply create_Reject. }
  split; [eauto|]. split; [by rewrite He'|].
  intros (sarifCF' & sarifTF' & Hi' & Hj' & Hflows & Hm & Hthreads & Hm' & Hsteps).
  simplify_eq.
  eapply create_first_Reject; [done| |done].
  eapply createCodeFlow_first_Reject; [done| |done..].
  by eapply createThreadFlow_first_Reject.
Qed.

(** C8. In a converted flow set the step at flow [i], thread [j], step
    [k] has the traversal id ["i_j_k"], and no two steps of the tree
    share a traversal id. *)
Theorem create_traversal_ids flows codeFlows :
  create (Some flows) = Resolve (Some codeFlows) →
  (∀ i j k step, read_step codeFlows i j k = Some step →
     traversalId step
     = index_to_string i +:+ "_" +:+ index_to_string j +:+ "_" +:+ index_to_string k)
  ∧ (∀ i j k step i' j' k' step',
       read_step codeFlows i j k = Some step →
       read_step codeFlows i' j' k' = Some step' →
       traversalId step = traversalId step' →
       i = i' ∧ j = j' ∧ k = k').
Proof.
  intros Hc.
  assert (∀ i j k step, read_step codeFlows i j k = Some step →
            traversalId step = traversal_id i j k) as Hid.
  { intros i j k step Hs.
    destruct (create_read_step _ _ _ _ _ _ _ _ _ Hc Hs)
      as (sarifCF & sarifTF & cFLoc & _ & _ & _ & Hstep).
    by apply createCodeFlowStep_Resolve in Hstep as (_ & _ & _ & _ & _ & -> & _). }
  split; [done|].
  intros i j k step i' j' k' step' Hs Hs' Heq.
  rewrite (Hid _ _ _ _ Hs), (Hid _ _ _ _ Hs') in Heq.
  by apply traversal_id_inj.
Qed.

End ConversionFailure.

(* ================================================================== *)
(** ** The remap loops are the traversal by recursion                  *)
(* ================================================================== *)

Lemma set_steps_id thread : set_steps (steps thread) thread = thread.
Proof. by destruct thread. Qed.

Lemma set_threads_id codeFlow : set_threads (threads codeFlow) codeFlow = codeFlow.
Proof. by destruct codeFlow. Qed.

Lemma alter_middle {A : Type} (f : A → A) (l1 l2 : list A) (x : A) :
  alter f (length l1) (l1 ++ x :: l2) = l1 ++ f x :: l2.
Proof. by rewrite alter_app_r_alt, Nat.sub_diag by lia. Qed.

Lemma read_thread_with_threads before codeFlow after tbefore thread tafter :
  read_thread (with_threads before codeFlow after (tbefore ++ thread :: tafter))
    (length before) (length tbefore) = Some thread.
Proof.
  unfold read_thread, with_threads.
  rewrite list_lookup_middle by done. simpl.
  by rewrite list_lookup_middle.
Qed.

Lemma read_step_with_steps before codeFlow after tbefore thread tafter sbefore step safter :
  read_step
    (with_steps before codeFlow after tbefore thread tafter (sbefore ++ step :: safter))
    (length before) (length tbefore) (length sbefore) = Some step.
Proof.
  unfold read_step, with_steps. rewrite read_thread_with_threads. simpl.
  by rewrite list_lookup_middle.
Qed.

Lemma write_location_with_steps before codeFlow after tbefore thread tafter
    sbefore step safter loc :
  write_location
    (with_steps before codeFlow after tbefore thread tafter (sbefore ++ step :: safter))
    (length before) (length tbefore) (length sbefore) loc
  = with_steps before codeFlow after tbefore thread tafter
      (sbefore ++ set_location loc step :: safter).
Proof.
  unfold write_location, with_steps, with_threads.
  rewrite alter_middle. simpl. rewrite alter_middle. simpl.
  by rewrite alter_middle.
Qed.

Section RemapLoops.

Variable LocationCreate : option PhysicalLocation → Promise LocationRef.

Local Abbreviation remap_step := (remap_step LocationCreate).
Local Abbreviation remap_thread := (remap_thread LocationCreate).
Local Abbreviation remap_codeFlow := (remap_codeFlow LocationCreate).
Local Abbreviation tryRemapCodeFlows := (tryRemapCodeFlows LocationCreate).
Local Abbreviation remap_steps_from := (remap_steps_from LocationCreate).
Local Abbreviation remap_threads_from := (remap_threads_from LocationCreate).
Local Abbreviation remap_flows_from := (remap_flows_from LocationCreate).

(** The innermost loop, from step [length sbefore] on. *)
Lemma for_keys_remap_step raw before codeFlow after tbefore thread tafter
    sbefore srest :
  for_keys (seq (length sbefore) (length srest))
    (remap_step raw (length before) (length tbefore))
    (with_steps before codeFlow after tbefore thread tafter (sbefore ++ srest))
  = let '(p, srest') :=
      remap_steps_from (sarif_location raw (length before) (length tbefore))
        (length sbefore) srest in
    (p, with_steps before codeFlow after tbefore thread tafter (sbefore ++ srest')).
Proof.
  revert sbefore. induction srest as [|step srest IH]; intros sbefore; [done|].
  simpl. unfold CodeFlows.remap_step at 1. rewrite read_step_with_steps.
  assert (∀ step', length (sbefore ++ [step']) = S (length sbefore)) as Hlen.
  { intros step'. rewrite length_app. simpl. lia. }
  destruct (needs_remap step).
  - destruct (sarif_location raw _ _ _) as [sarifLoc|]; [|done].
    destruct (LocationCreate _) as [loc|e]; [|done].
    rewrite write_location_with_steps.
    specialize (IH (sbefore ++ [set_location loc step])).
    rewrite Hlen, <- app_assoc in IH. simpl in IH. rewrite IH.
    destruct (remap_steps_from _ _ srest) as [p srest'].
    by rewrite <- app_assoc.
  - specialize (IH (sbefore ++ [step])).
    rewrite Hlen, <- app_assoc in IH. simpl in IH. rewrite IH.
    destruct (remap_steps_from _ _ srest) as [p srest'].
    by rewrite <- app_assoc.
Qed.

(** The middle loop, from thread [length tbefore] on. *)
Lemma for_keys_remap_thread raw before codeFlow after tbefore trest :
  for_keys (seq (length tbefore) (length trest))
    (remap_thread raw (length before))
    (with_threads before codeFlow after (tbefore ++ trest))
  = let '(p, trest') :=
      remap_threads_from (sarif_location raw (length before)) (length tbefore) trest in
    (p, with_threads before codeFlow after (tbefore ++ trest')).
Proof.
  revert tbefore. induction trest as [|thread trest IH]; intros tbefore; [done|].
  simpl. unfold CodeFlows.remap_thread at 1. rewrite read_thread_with_threads.
  pose proof (for_keys_remap_step raw before codeFlow after tbefore thread trest
                [] (steps thread)) as Hsteps.
  unfold with_steps in Hsteps at 1. simpl in Hsteps. rewrite set_steps_id in Hsteps.
  rewrite Hsteps.
  destruct (remap_steps_from _ 0 (steps thread)) as [[[]|e] steps']; [|done].
  unfold with_steps.
  specialize (IH (tbefore ++ [set_steps steps' thread])).
  rewrite length_app, Nat.add_1_r, <- app_assoc in IH. simpl in IH. rewrite IH.
  destruct (remap_threads_from _ _ trest) as [p trest'].
  by rewrite <- app_assoc.
Qed.

(** The outer loop, from flow [length before] on. *)
Lemma for_keys_remap_codeFlow raw before rest :
  for_keys (seq (length before) (length rest)) (remap_codeFlow raw) (before ++ rest)
  = let '(p, rest') := remap_flows_from (sarif_location raw) (length before) rest in
    (p, before ++ rest').
Proof.
  revert before. induction rest as [|codeFlow rest IH]; intros before; [done|].
  simpl. unfold CodeFlows.remap_codeFlow at 1. rewrite list_lookup_middle by done.
  pose proof (for_keys_remap_thread raw before codeFlow rest [] (threads codeFlow))
    as Hthreads.
  unfold with_threads in Hthreads at 1. simpl in Hthreads.
  rewrite set_threads_id in Hthreads. rewrite Hthreads.
  destruct (remap_threads_from _ 0 (threads codeFlow)) as [[[]|e] threads']; [|done].
  unfold with_threads.
  specialize (IH (before ++ [set_threads threads' codeFlow])).
  rewrite length_app, Nat.add_1_r, <- app_assoc in IH. simpl in IH. rewrite IH.
  destruct (remap_flows_from _ _ rest) as [p rest'].
  by rewrite <- app_assoc.
Qed.

Lemma tryRemapCodeFlows_by_recursion codeFlows raw :
  tryRemapCodeFlows codeFlows raw = remap_flows_from (sarif_location raw) 0 codeFlows.
Proof.
  unfold CodeFlows.tryRemapCodeFlows.
  pose proof (for_keys_remap_codeFlow raw [] codeFlows) as H. simpl in H.
  rewrite H. by destruct (remap_flows_from _ 0 codeFlows).
Qed.

End RemapLoops.

(* ================================================================== *)
(** ** What the remap traversal does to a tree                         *)
(* ================================================================== *)

Lemma erase_step_set_location loc step :
  erase_step (set_location loc step) = erase_step step.
Proof. done. Qed.

Lemma needs_remap_set_location loc step :
  needs_remap (set_location loc step)
  = match loc with
    | LocNull => false
    | LocObject l => negb (mapped l)
    end.
Proof. done. Qed.

Lemma set_location_twice loc step :
  set_location loc (set_location loc step) = set_location loc step.
Proof. done. Qed.

Section RemapEffect.

Variable LocationCreate : option PhysicalLocation → Promise LocationRef.

Local Abbreviation remap_steps_from := (remap_steps_from LocationCreate).
Local Abbreviation remap_threads_from := (remap_threads_from LocationCreate).
Local Abbreviation remap_flows_from := (remap_flows_from LocationCreate).
Local Abbreviation remapped := (remapped LocationCreate).

(** *** Frame: nothing but locations changes, whatever the outcome *)

Lemma remap_steps_from_erase sarifLocs k steps :
  erase_step <$> (remap_steps_from sarifLocs k steps).2 = erase_step <$> steps.
Proof.
  revert k. induction steps as [|step rest IH]; intros k; [done|]. simpl.
  specialize (IH (S k)).
  destruct (needs_remap step); [destruct (sarifLocs k); [destruct (LocationCreate _)|]|];
    try done;
    destruct (remap_steps_from sarifLocs (S k) rest) as [p rest'];
    unfold snd in *; by rewrite !fmap_cons, IH.
Qed.

Lemma remap_threads_from_erase sarifLocs j threads :
  erase_thread <$> (remap_threads_from sarifLocs j threads).2 = erase_thread <$> threads.
Proof.
  revert j. induction threads as [|thread rest IH]; intros j; [done|]. simpl.
  specialize (IH (S j)).
  pose proof (remap_steps_from_erase (sarifLocs j) 0 (steps thread)) as Hsteps.
  destruct (remap_steps_from (sarifLocs j) 0 (steps thread)) as [[[]|e] steps'];
    unfold snd in Hsteps.
  - destruct (remap_threads_from sarifLocs (S j) rest) as [p rest'].
    unfold snd in *. rewrite !fmap_cons, IH. f_equal.
    unfold erase_thread, set_steps. simpl. by rewrite Hsteps.
  - unfold snd. rewrite !fmap_cons. f_equal.
    unfold erase_thread, set_steps. simpl. by rewrite Hsteps.
Qed.

Lemma remap_flows_from_erase sarifLocs i codeFlows :
  erase_locations (remap_flows_from sarifLocs i codeFlows).2 = erase_locations codeFlows.
Proof.
  unfold erase_locations.
  revert i. induction codeFlows as [|codeFlow rest IH]; intros i; [done|]. simpl.
  specialize (IH (S i)).
  pose proof (remap_threads_from_erase (sarifLocs i) 0 (threads codeFlow)) as Hthreads.
  destruct (remap_threads_from (sarifLocs i) 0 (threads codeFlow)) as [[[]|e] threads'];
    unfold snd in Hthreads.
  - destruct (remap_flows_from sarifLocs (S i) rest) as [p rest'].
    unfold snd in *. rewrite !fmap_cons, IH. f_equal.
    unfold erase_flow, set_threads. simpl. by rewrite Hthreads.
  - unfold snd. rewrite !fmap_cons. f_equal.
    unfold erase_flow, set_threads. simpl. by rewrite Hthreads.
Qed.

(** *** Effect on one step *)

Lemma remap_steps_from_lookup sarifLocs k0 steps p steps' k step :
  remap_steps_from sarifLocs k0 steps = (p, steps') →
  steps !! k = Some step →
  remapped p (sarifLocs (k0 + k)) step (steps' !! k).
Proof.
  revert k0 k steps'. induction steps as [|step0 rest IH]; intros k0 k steps' H Hk; [done|].
  simpl in H.
  destruct (needs_remap step0) eqn:Hneeds.
  - destruct (sarifLocs k0) as [raw|] eqn:Hraw.
    + destruct (LocationCreate _) as [loc|e] eqn:Hloc.
      * destruct (remap_steps_from sarifLocs (S k0) rest) as [p' rest'] eqn:Hrest.
        injection H as <- <-. destruct k as [|k]; simpl in *.
        -- injection Hk as <-. rewrite Nat.add_0_r. split; [congruence|].
           intros _ _. exists raw, loc. done.
        -- rewrite Nat.add_succ_r. exact (IH (S k0) k rest' Hrest Hk).
      * injection H as <- <-. split; [|done].
        intros Hno. destruct k as [|k]; simpl in *; congruence.
    + injection H as <- <-. split; [|done].
      intros Hno. destruct k as [|k]; simpl in *; congruence.
  - destruct (remap_steps_from sarifLocs (S k0) rest) as [p' rest'] eqn:Hrest.
    injection H as <- <-. destruct k as [|k]; simpl in *.
    + injection Hk as <-. split; [done|congruence].
    + rewrite Nat.add_succ_r. exact (IH (S k0) k rest' Hrest Hk).
Qed.



Lemma remapped_any p sarifLoc step after :
  remapped (Resolve tt) sarifLoc step after → remapped p sarifLoc step after.
Proof. intros [H1 H2]. split; [done|]. intros Hneeds _. by apply H2. Qed.

Lemma remapped_untouched e sarifLoc step :
  remapped (Reject e) sarifLoc step (Some step).
Proof. by split. Qed.

Lemma remap_threads_from_lookup sarifLocs j0 threads p threads' j thread k step :
  remap_threads_from sarifLocs j0 threads = (p, threads') →
  threads !! j = Some thread → steps thread !! k = Some step →
  remapped p (sarifLocs (j0 + j) k) step (thread' ← threads' !! j; steps thread' !! k).
Proof.
  revert j0 j threads'.
  induction threads as [|thread0 rest IH]; intros j0 j threads' H Hj Hk; [done|].
  simpl in H.
  destruct (remap_steps_from (sarifLocs j0) 0 (steps thread0)) as [p0 steps'] eqn:Hsteps.
  destruct p0 as [[]|e].
  - destruct (remap_threads_from sarifLocs (S j0) rest) as [p' rest'] eqn:Hrest.
    injection H as <- <-. destruct j as [|j]; simpl in *.
    + injection Hj as <-. rewrite Nat.add_0_r. apply remapped_any.
      exact (remap_steps_from_lookup _ 0 _ _ _ k step Hsteps Hk).
    + rewrite Nat.add_succ_r. exact (IH (S j0) j rest' Hrest Hj Hk).
  - injection H as <- <-. destruct j as [|j]; simpl in *.
    + injection Hj as <-. rewrite Nat.add_0_r.
      exact (remap_steps_from_lookup _ 0 _ _ _ k step Hsteps Hk).
    + rewrite Hj. simpl. rewrite Hk. apply remapped_untouched.
Qed.

Lemma remap_flows_from_lookup sarifLocs i0 codeFlows p codeFlows' i j k step :
  remap_flows_from sarifLocs i0 codeFlows = (p, codeFlows') →
  read_step codeFlows i j k = Some step →
  remapped p (sarifLocs (i0 + i) j k) step (read_step codeFlows' i j k).
Proof.
  unfold read_step, read_thread.
  revert i0 i codeFlows'.
  induction codeFlows as [|codeFlow0 rest IH]; intros i0 i codeFlows' H Hs; [done|].
  simpl in H.
  destruct (remap_threads_from (sarifLocs i0) 0 (threads codeFlow0))
    as [p0 threads'] eqn:Hthreads.
  destruct p0 as [[]|e].
  - destruct (remap_flows_from sarifLocs (S i0) rest) as [p' rest'] eqn:Hrest.
    injection H as <- <-. destruct i as [|i]; simpl in *.
    + rewrite Nat.add_0_r. apply remapped_any.
      destruct (threads codeFlow0 !! j) as [thread|] eqn:Hj; [|done]. simpl in Hs.
      exact (remap_threads_from_lookup _ 0 _ _ _ j thread k step Hthreads Hj Hs).
    + rewrite Nat.add_succ_r. exact (IH (S i0) i rest' Hrest Hs).
  - injection H as <- <-. destruct i as [|i]; simpl in *.
    + rewrite Nat.add_0_r.
      destruct (threads codeFlow0 !! j) as [thread|] eqn:Hj; [|done]. simpl in Hs.
      exact (remap_threads_from_lookup _ 0 _ _ _ j thread k step Hthreads Hj Hs).
    + rewrite Hs. apply remapped_untouched.
Qed.

(** *** The pass resolves when every step that needs a remap has a raw
    location the resolver answers *)

Lemma remap_steps_from_total sarifLocs k0 steps :
  (∀ k step, steps !! k = Some step → needs_remap step = true →
     ∃ raw loc, sarifLocs (k0 + k) = Some raw
       ∧ LocationCreate (sl_physicalLocation raw) = Resolve loc) →
  (remap_steps_from sarifLocs k0 steps).1 = Resolve tt.
Proof.
  revert k0. induction steps as [|step rest IH]; intros k0 H; [done|]. simpl.
  assert ((remap_steps_from sarifLocs (S k0) rest).1 = Resolve tt) as Hrest.
  { apply IH. intros k step' Hk Hneeds. specialize (H (S k) step' Hk Hneeds).
    by rewrite Nat.add_succ_r in H. }
  destruct (needs_remap step) eqn:Hneeds.
  - destruct (H 0 step eq_refl Hneeds) as (raw & loc & Hraw & Hloc).
    rewrite Nat.add_0_r in Hraw. rewrite Hraw, Hloc.
    by destruct (remap_steps_from sarifLocs (S k0) rest).
  - by destruct (remap_steps_from sarifLocs (S k0) rest).
Qed.

Lemma remap_threads_from_total sarifLocs j0 threads :
  (∀ j thread k step, threads !! j = Some thread → steps thread !! k = Some step →
     needs_remap step = true →
     ∃ raw loc, sarifLocs (j0 + j) k = Some raw
       ∧ LocationCreate (sl_physicalLocation raw) = Resolve loc) →
  (remap_threads_from sarifLocs j0 threads).1 = Resolve tt.
Proof.
  revert j0. induction threads as [|thread rest IH]; intros j0 H; [done|]. simpl.
  assert ((remap_threads_from sarifLocs (S j0) rest).1 = Resolve tt) as Hrest.
  { apply IH. intros j thread' k step Hj Hk Hneeds.
    specialize (H (S j) thread' k step Hj Hk Hneeds).
    by rewrite Nat.add_succ_r in H. }
  assert ((remap_steps_from (sarifLocs j0) 0 (steps thread)).1 = Resolve tt) as Hsteps.
  { apply remap_steps_from_total. intros k step Hk Hneeds.
    specialize (H 0 thread k step eq_refl Hk Hneeds).
    by rewrite Nat.add_0_r in H. }
  destruct (remap_steps_from (sarifLocs j0) 0 (steps thread)) as [p0 steps'].
  simpl in Hsteps. subst p0.
  by destruct (remap_threads_from sarifLocs (S j0) rest).
Qed.

Lemma remap_flows_from_total sarifLocs i0 codeFlows :
  (∀ i j k step, read_step codeFlows i j k = Some step → needs_remap step = true →
     ∃ raw loc, sarifLocs (i0 + i) j k = Some raw
       ∧ LocationCreate (sl_physicalLocation raw) = Resolve loc) →
  (remap_flows_from sarifLocs i0 codeFlows).1 = Resolve tt.
Proof.
  unfold read_step, read_thread.
  revert i0. induction codeFlows as [|codeFlow rest IH]; intros i0 H; [done|]. simpl.
  assert ((remap_flows_from sarifLocs (S i0) rest).1 = Resolve tt) as Hrest.
  { apply IH. intros i j k step Hs Hneeds.
    specialize (H (S i) j k step Hs Hneeds).
    by rewrite Nat.add_succ_r in H. }
  assert ((remap_threads_from (sarifLocs i0) 0 (threads codeFlow)).1 = Resolve tt)
    as Hthreads.
  { apply remap_threads_from_total. intros j thread k step Hj Hk Hneeds.
    specialize (H 0 j k step). simpl in H. rewrite Hj in H. simpl in H.
    specialize (H Hk Hneeds). by rewrite Nat.add_0_r in H. }
  destruct (remap_threads_from (sarifLocs i0) 0 (threads codeFlow)) as [p0 threads'].
  simpl in Hthreads. subst p0.
  by destruct (remap_flows_from sarifLocs (S i0) rest).
Qed.

End RemapEffect.

(* ================================================================== *)
(** ** A second pass                                                   *)
(* ================================================================== *)

Section SecondPass.

(** The resolver as the first pass finds it, and as the second does. *)
Variables first second : option PhysicalLocation → Promise LocationRef.
Hypothesis deterministic : ∀ d, second d = first d.

Lemma remap_steps_from_again sarifLocs k steps :
  remap_steps_from second sarifLocs k (remap_steps_from first sarifLocs k steps).2
  = remap_steps_from first sarifLocs k steps.
Proof.
  revert k. induction steps as [|step rest IH]; intros k; [done|]. simpl.
  specialize (IH (S k)).
  destruct (needs_remap step) eqn:Hneeds.
  - destruct (sarifLocs k) as [raw|] eqn:Hraw.
    + destruct (first (sl_physicalLocation raw)) as [loc|e] eqn:Hloc.
      * destruct (remap_steps_from first sarifLocs (S k) rest) as [p rest'].
        simpl in *. rewrite needs_remap_set_location.
        destruct loc as [|l]; [by rewrite IH|].
        destruct (mapped l); simpl; [by rewrite IH|].
        by rewrite Hraw, deterministic, Hloc, IH.
      * simpl. by rewrite Hneeds, Hraw, deterministic, Hloc.
    + simpl. by rewrite Hneeds, Hraw.
  - destruct (remap_steps_from first sarifLocs (S k) rest) as [p rest'].
    simpl in *. by rewrite Hneeds, IH.
Qed.

Lemma remap_threads_from_again sarifLocs j threads :
  remap_threads_from second sarifLocs j (remap_threads_from first sarifLocs j threads).2
  = remap_threads_from first sarifLocs j threads.
Proof.
  revert j. induction threads as [|thread rest IH]; intros j; [done|]. simpl.
  specialize (IH (S j)).
  pose proof (remap_steps_from_again (sarifLocs j) 0 (steps thread)) as Hsteps.
  destruct (remap_steps_from first (sarifLocs j) 0 (steps thread)) as [[[]|e] steps'].
  - destruct (remap_threads_from first sarifLocs (S j) rest) as [p rest'].
    simpl in *. by rewrite Hsteps, IH.
  - simpl in *. by rewrite Hsteps.
Qed.

Lemma remap_flows_from_again sarifLocs i codeFlows :
  remap_flows_from second sarifLocs i (remap_flows_from first sarifLocs i codeFlows).2
  = remap_flows_from first sarifLocs i codeFlows.
Proof.
  revert i. induction codeFlows as [|codeFlow rest IH]; intros i; [done|]. simpl.
  specialize (IH (S i)).
  pose proof (remap_threads_from_again (sarifLocs i) 0 (threads codeFlow)) as Hthreads.
  destruct (remap_threads_from first (sarifLocs i) 0 (threads codeFlow))
    as [[[]|e] threads'].
  - destruct (remap_flows_from first sarifLocs (S i) rest) as [p rest'].
    simpl in *. by rewrite Hthreads, IH.
  - simpl in *. by rewrite Hthreads.
Qed.

(** C9. A second remap pass over the tree the first pass left, with the
    same raw array and a resolver that answers every descriptor as it
    did during the first pass, leaves the tree as the first pass left it
    and returns what the first pass returned; in particular the steps
    the first pass left mapped (or [null]) are the same steps after the
    second. *)
Theorem tryRemapCodeFlows_idempotent codeFlows raw :
  tryRemapCodeFlows second (tryRemapCodeFlows first codeFlows raw).2 raw
  = tryRemapCodeFlows first codeFlows raw
  ∧ ∀ i j k step,
      read_step (tryRemapCodeFlows first codeFlows raw).2 i j k = Some step →
      needs_remap step = false →
      read_step
        (tryRemapCodeFlows second (tryRemapCodeFlows first codeFlows raw).2 raw).2
        i j k = Some step.
Proof.
  assert (tryRemapCodeFlows second (tryRemapCodeFlows first codeFlows raw).2 raw
          = tryRemapCodeFlows first codeFlows raw) as Hagain.
  { rewrite !tryRemapCodeFlows_by_recursion. apply remap_flows_from_again. }
  split; [done|]. intros i j k step Hs _. by rewrite Hagain.
Qed.

End SecondPass.

Section RemapClaims.

Variable LocationCreate : option PhysicalLocation → Promise LocationRef.

Local Abbreviation tryRemapCodeFlows := (tryRemapCodeFlows LocationCreate).

(** C5. Whatever a remap pass returns, the tree it leaves differs from
    the tree it was given in step locations only, and every step whose
    location was [null] or mapped is the step it was. The pass resolves
    exactly when every step that is neither has a raw location at its
    indices which the resolver answers; a pass that resolved has put
    that answer, mapped or not, in the location of each such step. *)
Theorem tryRemapCodeFlows_effect codeFlows raw p codeFlows' :
  tryRemapCodeFlows codeFlows raw = (p, codeFlows') →
  erase_locations codeFlows' = erase_locations codeFlows
  ∧ (∀ i j k step, read_step codeFlows i j k = Some step →
       needs_remap step = false → read_step codeFlows' i j k = Some step)
  ∧ (p = Resolve tt ↔
       ∀ i j k step, read_step codeFlows i j k = Some step →
         needs_remap step = true →
         ∃ sarifLoc loc, sarif_location raw i j k = Some sarifLoc
           ∧ LocationCreate (sl_physicalLocation sarifLoc) = Resolve loc)
  ∧ (p = Resolve tt →
       ∀ i j k step, read_step codeFlows i j k = Some step →
         needs_remap step = true →
         ∃ sarifLoc loc, sarif_location raw i j k = Some sarifLoc
           ∧ LocationCreate (sl_physicalLocation sarifLoc) = Resolve loc
           ∧ read_step codeFlows' i j k = Some (set_location loc step)).
Proof.
  rewrite tryRemapCodeFlows_by_recursion. intros H.
  assert (∀ i j k step, read_step codeFlows i j k = Some step →
            remapped LocationCreate p (sarif_location raw i j k) step
              (read_step codeFlows' i j k)) as Hstep.
  { intros i j k step Hs.
    exact (remap_flows_from_lookup _ _ 0 _ _ _ i j k step H Hs). }
  split; [|split; [|split; [split|]]].
  - pose proof (remap_flows_from_erase LocationCreate (sarif_location raw) 0 codeFlows)
      as He.
    by rewrite H in He.
  - intros i j k step Hs Hneeds. by apply (Hstep i j k step Hs).
  - intros Hp i j k step Hs Hneeds.
    destruct (Hstep i j k step Hs) as [_ Hre].
    destruct (Hre Hneeds Hp) as (sarifLoc & loc & ? & ? & _). eauto.
  - intros Hall.
    pose proof (remap_flows_from_total LocationCreate (sarif_location raw) 0 codeFlows Hall)
      as Hp.
    by rewrite H in Hp.
  - intros Hp i j k step Hs Hneeds.
    destruct (Hstep i j k step Hs) as [_ Hre]. by apply Hre.
Qed.

End RemapClaims.

Section ShapeClaims.

Variable parseSarifMessage : MessageField → option Message.
Variable LocationCreate : option PhysicalLocation → Promise LocationRef.
Variable ExplorerCallbackCommand : string.

Local Abbreviation createCodeFlowStep :=
  (createCodeFlowStep parseSarifMessage LocationCreate ExplorerCallbackCommand).
Local Abbreviation createThreadFlow :=
  (createThreadFlow parseSarifMessage LocationCreate ExplorerCallbackCommand).
Local Abbreviation createCodeFlow :=
  (createCodeFlow parseSarifMessage LocationCreate ExplorerCallbackCommand).
Local Abbreviation create :=
  (create parseSarifMessage LocationCreate ExplorerCallbackCommand).

Lemma create_same_shape flows codeFlows :
  create (Some flows) = Resolve (Some codeFlows) → same_shape codeFlows flows.
Proof.
  intros H. apply create_Resolve in H as [_ H].
  eapply convert_from_Forall2; [done|].
  intros i sarifCF codeFlow _ Hcf. simpl in Hcf.
  apply createCodeFlow_Resolve in Hcf as [_ Hcf].
  eapply convert_from_Forall2; [done|].
  intros j sarifTF thread _ Htf. simpl in Htf.
  apply createThreadFlow_Resolve in Htf as (_ & _ & Htf).
  by destruct (convert_from_Resolve _ _ _ _ Htf).
Qed.

Lemma same_shape_read_step codeFlows flows i j k :
  same_shape codeFlows flows →
  is_Some (read_step codeFlows i j k) ↔ is_Some (sarif_location flows i j k).
Proof.
  intros Hshape. unfold read_step, read_thread, sarif_location.
  split; intros [x Hx].
  - destruct (codeFlows !! i) as [codeFlow|] eqn:Hi; [|done]. simpl in Hx.
    destruct (threads codeFlow !! j) as [thread|] eqn:Hj; [|done]. simpl in Hx.
    destruct (Forall2_lookup_l _ _ _ _ _ Hshape Hi) as (sarifCF & -> & Hthreads).
    destruct (Forall2_lookup_l _ _ _ _ _ Hthreads Hj) as (sarifTF & HsarifTF & Hlen).
    simpl. rewrite HsarifTF. simpl.
    apply lookup_lt_Some in Hx.
    destruct (lookup_lt_is_Some_2 (stf_locations sarifTF) k) as [cFLoc ->]; [lia|].
    by eexists.
  - destruct (flows !! i) as [sarifCF|] eqn:Hi; [|done]. simpl in Hx.
    destruct (scf_threadFlows sarifCF !! j) as [sarifTF|] eqn:Hj; [|done]. simpl in Hx.
    destruct (stf_locations sarifTF !! k) as [cFLoc|] eqn:Hk; [|done].
    destruct (Forall2_lookup_r _ _ _ _ _ Hshape Hi) as (codeFlow & -> & Hthreads).
    destruct (Forall2_lookup_r _ _ _ _ _ Hthreads Hj) as (thread & Hthread & Hlen).
    simpl. rewrite Hthread. simpl.
    apply lookup_lt_Some in Hk. apply lookup_lt_is_Some_2. lia.
Qed.

(** C10. A converted tree has the index structure of the raw array it
    was converted from: as many flows, in each flow as many threads, in
    each thread as many steps, and the step at each index triple is the
    conversion of the raw location at that triple. So a step is read at
    an index triple exactly when a raw location is, and a remap pass over
    the tree with that raw array resolves whenever its resolver does. *)
Theorem create_index_structure flows codeFlows :
  create (Some flows) = Resolve (Some codeFlows) →
  length codeFlows = length flows
  ∧ same_shape codeFlows flows
  ∧ (∀ i j k, is_Some (read_step codeFlows i j k)
              ↔ is_Some (sarif_location flows i j k))
  ∧ (∀ i j k step, read_step codeFlows i j k = Some step →
       ∃ sarifCF sarifTF cFLoc,
         flows !! i = Some sarifCF
         ∧ scf_threadFlows sarifCF !! j = Some sarifTF
         ∧ stf_locations sarifTF !! k = Some cFLoc
         ∧ createCodeFlowStep cFLoc (stf_locations sarifTF !! (k + 1))
             (traversal_id i j k) = Resolve step)
  ∧ (∀ later : option PhysicalLocation → Promise LocationRef,
       (∀ d, ∃ loc, later d = Resolve loc) →
       (tryRemapCodeFlows later codeFlows flows).1 = Resolve tt).
Proof.
  intros H. pose proof (create_same_shape _ _ H) as Hshape.
  split; [by eapply Forall2_length|]. split; [done|].
  split; [intros; by apply same_shape_read_step|].
  split; [intros i j k step; by apply create_read_step|].
  intros later Htotal. rewrite tryRemapCodeFlows_by_recursion.
  apply remap_flows_from_total. intros i j k step Hs _. simpl.
  destruct (proj1 (same_shape_read_step _ _ i j k Hshape)) as [sarifLoc Hloc]; [eauto|].
  destruct (Htotal (sl_physicalLocation sarifLoc)) as [loc Hres]. eauto.
Qed.

End ShapeClaims.

(* ================================================================== *)
(** ** The statements on the sample inputs                             *)
(* ================================================================== *)

Example sample_tree_converted :
  create sample_parser sample_resolver sample_command (Some sample_flows)
  = Resolve (Some sample_tree).
Proof. vm_compute. reflexivity. Qed.

(** Nesting levels 0, 1, 1, 0 give a parent, a plain step, a last child
    and a plain final step. *)
Example sample_thread_flags :
  (λ step, (isParent step, isLastChild step)) <$>
    (match createThreadFlow sample_parser sample_resolver sample_command
             sample_thread "0_0" with
     | Resolve thread => steps thread
     | Reject _ => []
     end)
  = [(true, false); (false, false); (false, true); (false, false)].
Proof. vm_compute. reflexivity. Qed.

Example traversal_id_example : traversal_id 1 0 12 = "1_0_12".
Proof. vm_compute. reflexivity. Qed.

(** An undefined level before a defined one makes a parent. *)
Example undefined_level_before_defined :
  nesting_flags (loc_at "a.c" 1 MsgUndefined None None)
    (Some (loc_at "a.c" 2 MsgUndefined (Some 2%Z) None))
  = (true, false).
Proof. reflexivity. Qed.

(** Without the determinism assumption a second pass can change the
    tree: the files under ["gone/"] have been found in between. *)
Example second_pass_with_another_resolver :
  tryRemapCodeFlows later_resolver
    (tryRemapCodeFlows sample_resolver sample_tree sample_flows).2 sample_flows
  ≠ tryRemapCodeFlows sample_resolver sample_tree sample_flows.
Proof. vm_compute. discriminate. Qed.

(** The ordinal [10^21] is printed as JavaScript prints it. *)
Example big_ordinal_label :
  messageWithStep <$>
    (match createCodeFlowStep sample_parser sample_resolver sample_command
             big_location None "0_0_0" with
     | Resolve step => Some step
     | Reject _ => None
     end)
  = Some "Step 1e+21: big".
Proof. vm_compute. reflexivity. Qed.

Lemma createCodeFlowStep_classification_witness :
  ∃ step,
    createCodeFlowStep sample_parser sample_resolver sample_command
      enter_location (Some callee_location) "0_0_0" = Resolve step
    ∧ (isParent step = true ↔
         (∃ cur nxt, cfl_nestingLevel enter_location = Some cur
                     ∧ cfl_nestingLevel callee_location = Some nxt ∧ (cur < nxt)%Z)
         ∨ (cfl_nestingLevel enter_location = None
            ∧ cfl_nestingLevel callee_location ≠ None))
    ∧ (isLastChild step = true ↔
         isParent step = false
         ∧ ((∃ cur nxt, cfl_nestingLevel enter_location = Some cur
                        ∧ cfl_nestingLevel callee_location = Some nxt ∧ (cur > nxt)%Z)
            ∨ (cfl_nestingLevel enter_location ≠ None
               ∧ cfl_nestingLevel callee_location = None)))
    ∧ (cfl_nestingLevel enter_location = cfl_nestingLevel callee_location →
         isParent step = false ∧ isLastChild step = false)
    ∧ ¬ (isParent step = true ∧ isLastChild step = true).
Proof.
  eexists. split; [reflexivity|].
  apply (createCodeFlowStep_classification sample_parser sample_resolver sample_command
           enter_location callee_location "0_0_0").
  reflexivity.
Defined.

Lemma create_result_witness :
  sample_flows ≠ []
  ∧ create sample_parser sample_resolver sample_command (Some sample_flows)
    = Resolve (Some sample_tree)
  ∧ ∃ codeFlows,
      Some sample_tree = Some codeFlows
      ∧ length codeFlows = length sample_flows
      ∧ ∀ i sarifCF, sample_flows !! i = Some sarifCF →
          ∃ codeFlow, codeFlows !! i = Some codeFlow
            ∧ createCodeFlow sample_parser sample_resolver sample_command
                sarifCF (index_to_string i) = Resolve codeFlow.
Proof.
  split; [discriminate|]. split; [vm_compute; reflexivity|].
  apply (proj1 (proj2 (proj2
           (create_result sample_parser sample_resolver sample_command))
           sample_flows ltac:(discriminate))).
  vm_compute. reflexivity.
Defined.

Lemma createThreadFlow_last_step_witness :
  ∃ thread step,
    createThreadFlow sample_parser sample_resolver sample_command sample_thread "0_0"
    = Resolve thread
    ∧ last (steps thread) = Some step
    ∧ isParent step = false ∧ isLastChild step = false.
Proof.
  eexists _, _. split; [reflexivity|]. split; [reflexivity|].
  eapply (createThreadFlow_last_step sample_parser sample_resolver sample_command
            sample_thread "0_0"); reflexivity.
Defined.

Lemma createCodeFlowStep_labels_witness :
  ∃ step,
    createCodeFlowStep sample_parser sample_resolver sample_command
      foo_location None "0_0_3" = Resolve step
    ∧ messageWithStep step = "Step 5: foo"
    ∧ messageWithStep step =
        match cfl_step foo_location with
        | Some ordinal => "Step " +:+ number_to_string ordinal +:+ ": " +:+ message step
        | None => message step
        end.
Proof.
  eexists. split; [reflexivity|]. split; [reflexivity|].
  apply (createCodeFlowStep_labels sample_parser sample_resolver sample_command
           foo_location None "0_0_3").
  reflexivity.
Defined.

Lemma tryRemapCodeFlows_effect_witness :
  ∃ p codeFlows',
    tryRemapCodeFlows later_resolver sample_tree sample_flows = (p, codeFlows')
    ∧ p = Resolve tt
    ∧ erase_locations codeFlows' = erase_locations sample_tree
    ∧ (∀ i j k step, read_step sample_tree i j k = Some step →
         needs_remap step = false → read_step codeFlows' i j k = Some step)
    ∧ (∀ i j k step, read_step sample_tree i j k = Some step →
         needs_remap step = true →
         ∃ sarifLoc loc, sarif_location sample_flows i j k = Some sarifLoc
           ∧ later_resolver (sl_physicalLocation sarifLoc) = Resolve loc
           ∧ read_step codeFlows' i j k = Some (set_location loc step)).
Proof.
  eexists _, _. split; [vm_compute; reflexivity|]. split; [reflexivity|].
  destruct (tryRemapCodeFlows_effect later_resolver sample_tree sample_flows _ _
              ltac:(vm_compute; reflexivity)) as (Hframe & Hsame & _ & Hnew).
  split; [exact Hframe|]. split; [exact Hsame|]. exact (Hnew eq_refl).
Defined.

Lemma create_all_or_nothing_witness :
  ∃ sarifLoc e,
    sarif_location broken_flows 1 1 1 = Some sarifLoc
    ∧ sample_resolver (sl_physicalLocation sarifLoc) = Reject e
    ∧ resolver_reached sample_parser sample_resolver sample_command broken_flows 1 1 1
    ∧ (∀ result,
         create sample_parser sample_resolver sample_command (Some broken_flows)
         ≠ Resolve result)
    ∧ create sample_parser sample_resolver sample_command (Some broken_flows)
      = Reject e.
Proof.
  eexists _, _. split; [reflexivity|]. split; [reflexivity|].
  assert (resolver_reached sample_parser sample_resolver sample_command
            broken_flows 1 1 1) as Hreached.
  { eexists _, _. split; [reflexivity|]. split; [reflexivity|].
    split; [|split; [|split; [|split]]].
    - intros [|i'] sarifCF' Hlt Hi; [|lia]. injection Hi as <-.
      eexists. vm_compute. reflexivity.
    - eexists. reflexivity.
    - intros [|j'] sarifTF' Hlt Hj; [|lia]. injection Hj as <-.
      eexists. vm_compute. reflexivity.
    - eexists. reflexivity.
    - intros [|k'] cFLoc' Hlt Hk; [|lia]. injection Hk as <-.
      eexists. reflexivity. }
  split; [exact Hreached|].
  destruct (create_all_or_nothing sample_parser sample_resolver sample_command
              broken_flows 1 1 1 _ _ eq_refl eq_refl) as (_ & Hnone & Hfirst).
  split; [exact Hnone|]. exact (Hfirst Hreached).
Defined.

(** C7 as the specification states it fails on a [null] message: with a
    parser that answers [null] with the empty text the converted message
    is the empty string; with the sample parser the conversion is
    rejected; and with no parser at all does the conversion resolve to a
    code flow whose message is [undefined]. The same goes for the empty
    message object. *)
Lemma falsy_message_not_left_undefined :
  js_falsy (scf_message null_message_flow) = true
  ∧ (∃ codeFlow,
       createCodeFlow lenient_parser sample_resolver sample_command
         null_message_flow "0" = Resolve codeFlow
       ∧ cf_message codeFlow = Some ""
       ∧ cf_message codeFlow ≠ None)
  ∧ createCodeFlow sample_parser sample_resolver sample_command
      null_message_flow "0" = Reject TypeError
  ∧ (∀ parse resolve cmd codeFlow,
       createCodeFlow parse resolve cmd null_message_flow "0" = Resolve codeFlow →
       cf_message codeFlow ≠ None)
  ∧ (∀ parse resolve cmd codeFlow,
       createCodeFlow parse resolve cmd empty_message_flow "0" = Resolve codeFlow →
       cf_message codeFlow ≠ None).
Proof.
  split; [reflexivity|].
  split; [eexists; split; [reflexivity|]; split; [reflexivity|discriminate]|].
  split; [reflexivity|].
  split; intros parse resolve cmd codeFlow;
    unfold createCodeFlow, optional_message, parsed_text, for_each_push; simpl;
    destruct (parse _) as [parsed|]; simpl; [|discriminate| |discriminate];
    by intros [= <-].
Qed.

Lemma converted_message_guard_witness :
  scf_message null_message_flow ≠ MsgUndefined
  ∧ stf_message sample_thread = MsgUndefined
  ∧ (∃ codeFlow,
       createCodeFlow lenient_parser sample_resolver sample_command
         null_message_flow "0" = Resolve codeFlow
       ∧ ∃ parsed, lenient_parser (scf_message null_message_flow) = Some parsed
                   ∧ cf_message codeFlow = Some (text parsed))
  ∧ (∃ thread,
       createThreadFlow lenient_parser sample_resolver sample_command
         sample_thread "0" = Resolve thread
       ∧ tf_message thread = None).
Proof.
  split; [discriminate|]. split; [reflexivity|].
  destruct (converted_message_guard lenient_parser sample_resolver sample_command
              null_message_flow sample_thread "0") as (_ & Hflow & Hthread & _).
  split.
  - eexists. split; [reflexivity|].
    apply (proj1 (Hflow ltac:(discriminate))). reflexivity.
  - eexists. split; [reflexivity|].
    apply (Hthread eq_refl). reflexivity.
Defined.

Lemma create_traversal_ids_witness :
  create sample_parser sample_resolver sample_command (Some sample_flows)
  = Resolve (Some sample_tree)
  ∧ (∀ i j k step, read_step sample_tree i j k = Some step →
       traversalId step
       = index_to_string i +:+ "_" +:+ index_to_string j +:+ "_" +:+ index_to_string k)
  ∧ (∀ i j k step i' j' k' step',
       read_step sample_tree i j k = Some step →
       read_step sample_tree i' j' k' = Some step' →
       traversalId step = traversalId step' →
       i = i' ∧ j = j' ∧ k = k').
Proof.
  split; [vm_compute; reflexivity|].
  apply (create_traversal_ids sample_parser sample_resolver sample_command
           sample_flows sample_tree).
  vm_compute. reflexivity.
Defined.

Lemma tryRemapCodeFlows_idempotent_witness :
  (∀ d, later_resolver d = later_resolver d)
  ∧ tryRemapCodeFlows later_resolver
      (tryRemapCodeFlows later_resolver sample_tree sample_flows).2 sample_flows
    = tryRemapCodeFlows later_resolver sample_tree sample_flows.
Proof.
  split; [reflexivity|].
  apply (proj1 (tryRemapCodeFlows_idempotent later_resolver later_resolver
                  ltac:(reflexivity) sample_tree sample_flows)).
Defined.

Lemma create_index_structure_witness :
  create sample_parser sample_resolver sample_command (Some sample_flows)
  = Resolve (Some sample_tree)
  ∧ length sample_tree = length sample_flows
  ∧ same_shape sample_tree sample_flows
  ∧ (∀ i j k, is_Some (read_step sample_tree i j k)
              ↔ is_Some (sarif_location sample_flows i j k))
  ∧ (tryRemapCodeFlows later_resolver sample_tree sample_flows).1 = Resolve tt.
Proof.
  split; [vm_compute; reflexivity|].
  destruct (create_index_structure sample_parser sample_resolver sample_command
              sample_flows sample_tree ltac:(vm_compute; reflexivity))
    as (Hlen & Hshape & Hindex & _ & Hremap).
  split; [exact Hlen|]. split; [exact Hshape|]. split; [exact Hindex|].
  apply Hremap. intros [pl|]; eexists; reflexivity.
Defined.

(* ================================================================== *)
(** ** Further properties of the conversion                            *)
(* ================================================================== *)

Lemma sarif_location_raw_location flows i j k :
  sarif_location flows i j k = cfl_location <$> raw_location flows i j k.
Proof.
  unfold sarif_location, raw_location.
  destruct (flows !! i) as [sarifCF|]; [|done]. simpl.
  destruct (scf_threadFlows sarifCF !! j) as [sarifTF|]; [|done]. simpl.
  by destruct (stf_locations sarifTF !! k).
Qed.

Lemma raw_location_Some flows i j k cFLoc :
  raw_location flows i j k = Some cFLoc ↔
  ∃ sarifCF sarifTF,
    flows !! i = Some sarifCF
    ∧ scf_threadFlows sarifCF !! j = Some sarifTF
    ∧ stf_locations sarifTF !! k = Some cFLoc.
Proof.
  unfold raw_location. split.
  - intros H.
    destruct (flows !! i) as [sarifCF|] eqn:Hi; [|done]. simpl in H.
    destruct (scf_threadFlows sarifCF !! j) as [sarifTF|] eqn:Hj; [|done].
    by exists sarifCF, sarifTF.
  - intros (sarifCF & sarifTF & -> & Hj & Hk). simpl. by rewrite Hj.
Qed.

Lemma needs_remap_unmapped step : needs_remap step = unmapped (location step).
Proof. done. Qed.

Lemma append_nonempty (a b : string) : a ≠ "" → a +:+ b ≠ "".
Proof. by destruct a. Qed.

(** Reading a step commutes with erasing the locations. *)
Lemma read_step_erase h i j k :
  read_step (erase_locations h) i j k = erase_step <$> read_step h i j k.
Proof.
  unfold read_step, read_thread, erase_locations.
  rewrite list_lookup_fmap. destruct (h !! i) as [codeFlow|]; [|done]. simpl.
  rewrite list_lookup_fmap. destruct (threads codeFlow !! j) as [thread|]; [|done].
  simpl. by rewrite list_lookup_fmap.
Qed.

Section ConversionFurther.

Variable parseSarifMessage : MessageField → option Message.
Variable LocationCreate : option PhysicalLocation → Promise LocationRef.
Variable ExplorerCallbackCommand : string.

Local Abbreviation createCodeFlowStep :=
  (createCodeFlowStep parseSarifMessage LocationCreate ExplorerCallbackCommand).
Local Abbreviation createThreadFlow :=
  (createThreadFlow parseSarifMessage LocationCreate ExplorerCallbackCommand).
Local Abbreviation createCodeFlow :=
  (createCodeFlow parseSarifMessage LocationCreate ExplorerCallbackCommand).
Local Abbreviation create :=
  (create parseSarifMessage LocationCreate ExplorerCallbackCommand).
Local Abbreviation optional_message := (optional_message parseSarifMessage).
Local Abbreviation step_message := (step_message parseSarifMessage).

(** The fields of a converted step that the claims' inversion lemma
    leaves out. *)
Lemma createCodeFlowStep_copied cFLoc nextCFLoc tid step :
  createCodeFlowStep cFLoc nextCFLoc tid = Resolve step →
  stepId step = cfl_step cFLoc
  ∧ state step = cfl_state cFLoc
  ∧ importance step = match cfl_importance cFLoc with
                      | Some i => i
                      | None => important
                      end
  ∧ codeLensCommand step =
      {| arguments := [ {| request := "CodeFlowTreeSelectionChange";
                           treeid_step := tid |} ];
         command := ExplorerCallbackCommand;
         title := messageWithStep step |}.
Proof.
  unfold CodeFlows.createCodeFlowStep. intros H. inv_then H.
  destruct (nesting_flags cFLoc nextCFLoc) as [p c].
  by injection H as <-.
Qed.

(** A step of a converted tree, against the raw location at its indices
    and the raw location after that one in the same thread. *)
Lemma create_read_step_raw flows codeFlows i j k step :
  create (Some flows) = Resolve (Some codeFlows) →
  read_step codeFlows i j k = Some step →
  ∃ cFLoc,
    raw_location flows i j k = Some cFLoc
    ∧ createCodeFlowStep cFLoc (raw_location flows i j (k + 1))
        (traversal_id i j k) = Resolve step.
Proof.
  intros Hc Hs.
  destruct (create_read_step _ _ _ _ _ _ _ _ _ Hc Hs)
    as (sarifCF & sarifTF & cFLoc & Hi & Hj & Hk & Hstep).
  exists cFLoc. split.
  - apply raw_location_Some. eauto.
  - unfold raw_location. rewrite Hi. simpl. by rewrite Hj.
Qed.

Lemma create_read_thread flows codeFlows i j thread :
  create (Some flows) = Resolve (Some codeFlows) →
  read_thread codeFlows i j = Some thread →
  ∃ sarifTF,
    raw_thread flows i j = Some sarifTF
    ∧ createThreadFlow sarifTF (index_to_string i +:+ "_" +:+ index_to_string j)
      = Resolve thread.
Proof.
  intros Hc Ht. apply create_Resolve in Hc as [_ Hc].
  unfold read_thread in Ht.
  destruct (codeFlows !! i) as [codeFlow|] eqn:Hi; [|done]. simpl in Ht.
  destruct (convert_from_lookup _ _ _ _ _ _ Hc Hi) as (sarifCF & HsarifCF & Hcf).
  apply createCodeFlow_Resolve in Hcf as (_ & Hcf).
  destruct (convert_from_lookup _ _ _ _ _ _ Hcf Ht) as (sarifTF & HsarifTF & Htf).
  exists sarifTF. split; [|done].
  unfold raw_thread. by rewrite HsarifCF.
Qed.

(** X3. [create] resolves to [undefined] only on [undefined] and on the
    empty array, and it never resolves to an empty array. *)
Theorem create_never_empty sarifCodeFlows result :
  create sarifCodeFlows = Resolve result →
  (result = None ↔ sarifCodeFlows = None ∨ sarifCodeFlows = Some [])
  ∧ result ≠ Some [].
Proof.
  destruct sarifCodeFlows as [[|sarifCF flows]|]; simpl.
  - intros [= <-]. split; [split; eauto|done].
  - intros H.
    change (create (Some (sarifCF :: flows)) = Resolve result) in H.
    rewrite create_nonempty in H by done. inv_then H. injection H as <-.
    destruct (convert_from_Resolve _ _ _ _ Hr) as [Hlen _].
    split.
    + split; [done|]. by intros [|].
    + intros [= ->]. done.
  - intros [= <-]. split; [split; eauto|done].
Qed.

(** X4. In a converted tree the step at flow [i], thread [j], step [k]
    carries the ordinal and the state of the raw location at those
    indices, its importance or [important] when it has none, and as
    location what the resolver answered for its descriptor; the thread
    at [(i, j)] carries the id of the raw thread and has one step for
    each of its locations. *)
Theorem create_copies_raw_fields flows codeFlows :
  create (Some flows) = Resolve (Some codeFlows) →
  (∀ i j k step, read_step codeFlows i j k = Some step →
     ∃ cFLoc,
       raw_location flows i j k = Some cFLoc
       ∧ stepId step = cfl_step cFLoc
       ∧ state step = cfl_state cFLoc
       ∧ importance step = match cfl_importance cFLoc with
                           | Some i => i
                           | None => important
                           end
       ∧ LocationCreate (sl_physicalLocation (cfl_location cFLoc))
         = Resolve (location step))
  ∧ (∀ i j thread, read_thread codeFlows i j = Some thread →
       ∃ sarifTF,
         raw_thread flows i j = Some sarifTF
         ∧ tf_id thread = stf_id sarifTF
         ∧ length (steps thread) = length (stf_locations sarifTF)).
Proof.
  intros Hc. split.
  - intros i j k step Hs.
    destruct (create_read_step_raw _ _ _ _ _ _ Hc Hs) as (cFLoc & Hraw & Hstep).
    exists cFLoc. split; [done|].
    destruct (createCodeFlowStep_copied _ _ _ _ Hstep) as (? & ? & ? & _).
    by apply createCodeFlowStep_Resolve in Hstep as (? & _).
  - intros i j thread Ht.
    destruct (create_read_thread _ _ _ _ _ Hc Ht) as (sarifTF & Hraw & Hthread).
    exists sarifTF. split; [done|].
    apply createThreadFlow_Resolve in Hthread as (_ & ? & Hsteps).
    split; [done|]. by destruct (convert_from_Resolve _ _ _ _ Hsteps).
Qed.

(** X5. The selection command of the step at flow [i], thread [j], step
    [k] of a converted tree has the callback command, the step's
    [messageWithStep] as title, and one argument: the request
    ["CodeFlowTreeSelectionChange"] with the id ["i_j_k"]. So the id a
    command carries finds one step of the tree, the one it belongs to. *)
Theorem create_selection_command flows codeFlows :
  create (Some flows) = Resolve (Some codeFlows) →
  (∀ i j k step, read_step codeFlows i j k = Some step →
     codeLensCommand step =
       {| arguments := [ {| request := "CodeFlowTreeSelectionChange";
                            treeid_step := traversal_id i j k |} ];
          command := ExplorerCallbackCommand;
          title := messageWithStep step |})
  ∧ (∀ i j k step i' j' k' step',
       read_step codeFlows i j k = Some step →
       read_step codeFlows i' j' k' = Some step' →
       (treeid_step <$> arguments (codeLensCommand step))
       = (treeid_step <$> arguments (codeLensCommand step')) →
       i = i' ∧ j = j' ∧ k = k').
Proof.
  intros Hc.
  assert (∀ i j k step, read_step codeFlows i j k = Some step →
            codeLensCommand step =
              {| arguments := [ {| request := "CodeFlowTreeSelectionChange";
                                   treeid_step := traversal_id i j k |} ];
                 command := ExplorerCallbackCommand;
                 title := messageWithStep step |}) as Hcmd.
  { intros i j k step Hs.
    destruct (create_read_step_raw _ _ _ _ _ _ Hc Hs) as (cFLoc & _ & Hstep).
    by destruct (createCodeFlowStep_copied _ _ _ _ Hstep) as (_ & _ & _ & ?). }
  split; [done|].
  intros i j k step i' j' k' step' Hs Hs' Heq.
  rewrite (Hcmd _ _ _ _ Hs), (Hcmd _ _ _ _ Hs') in Heq. simpl in Heq.
  injection Heq as Heq. by apply traversal_id_inj.
Qed.

Lemma step_message_nonempty cFLoc isLastChildFlag :
  step_message cFLoc isLastChildFlag ≠ "".
Proof.
  unfold CodeFlows.step_message.
  destruct (String.eqb_spec
              match parseSarifMessage (sl_message (cfl_location cFLoc)) with
              | Some parsed => text parsed
              | None => ""
              end "") as [Heq|Hne]; [|done].
  by destruct isLastChildFlag.
Qed.

(** X6. No step of a converted tree has an empty [message] or an empty
    [messageWithStep]. *)
Theorem create_labels_nonempty flows codeFlows i j k step :
  create (Some flows) = Resolve (Some codeFlows) →
  read_step codeFlows i j k = Some step →
  message step ≠ "" ∧ messageWithStep step ≠ "".
Proof.
  intros Hc Hs.
  destruct (create_read_step_raw _ _ _ _ _ _ Hc Hs) as (cFLoc & _ & Hstep).
  apply createCodeFlowStep_Resolve in Hstep as (_ & _ & _ & Hm & Hws & _).
  assert (message step ≠ "") as Hne.
  { rewrite Hm. apply step_message_nonempty. }
  split; [done|]. rewrite Hws.
  destruct (cfl_step cFLoc); [|done]. by apply append_nonempty.
Qed.

(** X7. The last step of a converted thread is never labelled
    ["[return call]"] by the fallback: when the parser has no text, or an
    empty one, for the last raw location, the step's message is
    ["[no description]"]. *)
Theorem createThreadFlow_last_label sarifTF tid thread step cFLoc :
  createThreadFlow sarifTF tid = Resolve thread →
  last (steps thread) = Some step →
  last (stf_locations sarifTF) = Some cFLoc →
  (parseSarifMessage (sl_message (cfl_location cFLoc)) = None
   ∨ ∃ parsed, parseSarifMessage (sl_message (cfl_location cFLoc)) = Some parsed
               ∧ text parsed = "") →
  message step = "[no description]".
Proof.
  intros H Hlast Hraw Htext.
  apply createThreadFlow_Resolve in H as (_ & _ & H).
  rewrite last_lookup in Hlast. rewrite last_lookup in Hraw.
  destruct (convert_from_Resolve _ _ _ _ H) as [Hlen _].
  destruct (convert_from_lookup _ _ _ _ _ _ H Hlast) as (cFLoc' & HcFLoc & Hstep).
  rewrite Hlen in HcFLoc. simplify_eq. simpl in Hstep.
  assert (stf_locations sarifTF !! (Init.Nat.pred (length (steps thread)) + 1) = None)
    as Hnone.
  { apply lookup_ge_None. apply lookup_lt_Some in Hraw. lia. }
  rewrite Hnone in Hstep.
  apply createCodeFlowStep_Resolve in Hstep as (_ & _ & Hchild & Hm & _).
  simpl in Hchild. rewrite Hm, Hchild. unfold CodeFlows.step_message.
  by destruct Htext as [-> | (parsed & -> & ->)].
Qed.

(** X8. In a converted tree a step is classified against the raw
    location that follows it in its own thread: when both nesting levels
    are defined, the step is a parent exactly when its level is below the
    next one and a last child exactly when its level is above it. *)
Theorem create_classifies_by_successor flows codeFlows i j k step cFLoc next cur nxt :
  create (Some flows) = Resolve (Some codeFlows) →
  read_step codeFlows i j k = Some step →
  raw_location flows i j k = Some cFLoc →
  raw_location flows i j (k + 1) = Some next →
  cfl_nestingLevel cFLoc = Some cur →
  cfl_nestingLevel next = Some nxt →
  isParent step = (cur <? nxt)%Z ∧ isLastChild step = (cur >? nxt)%Z.
Proof.
  intros Hc Hs HcFLoc Hnext Hcur Hnxt.
  destruct (create_read_step_raw _ _ _ _ _ _ Hc Hs) as (cFLoc' & Hraw & Hstep).
  simplify_eq. rewrite Hnext in Hstep.
  apply createCodeFlowStep_Resolve in Hstep as (_ & -> & -> & _).
  unfold nesting_flags. rewrite Hcur, Hnxt. simpl. rewrite !orb_false_r.
  destruct (Z.ltb_spec cur nxt) as [Hlt|Hge]; simpl.
  - split; [done|]. destruct (Z.gtb_spec cur nxt); [lia|done].
  - by destruct (cur >? nxt)%Z.
Qed.

End ConversionFurther.

(* ================================================================== *)
(** ** When the conversion resolves, and with what it is rejected      *)
(* ================================================================== *)

Lemma then_Reject_inv {A B : Type} (p : Promise A) (f : A → Promise B) (e : JsError) :
  then_ p f = Reject e → p = Reject e ∨ ∃ a, p = Resolve a ∧ f a = Reject e.
Proof. destruct p as [a|e']; simpl; [eauto | intros [= ->]; auto]. Qed.

(** A rejected loop has a rejected call, and the error is that call's. *)
Lemma convert_from_Reject_inv {A B : Type} (f : nat → A → Promise B) (i : nat)
    (xs : list A) (e : JsError) :
  convert_from f i xs = Reject e →
  ∃ k x, xs !! k = Some x ∧ f (i + k) x = Reject e.
Proof.
  revert i. induction xs as [|x0 xs IH]; intros i H; simpl in H; [done|].
  apply then_Reject_inv in H as [H | (y & Hy & H)].
  - exists 0, x0. by rewrite Nat.add_0_r.
  - apply then_Reject_inv in H as [H | (ys & Hys & H)]; [|done].
    destruct (IH _ H) as (k & x & Hx & Hf).
    exists (S k), x. by rewrite Nat.add_succ_r.
Qed.

(** The loop depends on its body only at the elements it visits. *)
Lemma convert_from_ext {A B : Type} (f g : nat → A → Promise B) (i : nat)
    (xs : list A) :
  (∀ k x, xs !! k = Some x → f (i + k) x = g (i + k) x) →
  convert_from f i xs = convert_from g i xs.
Proof.
  revert i. induction xs as [|x xs IH]; intros i H; [done|]. simpl.
  pose proof (H 0 x eq_refl) as H0. rewrite Nat.add_0_r in H0. rewrite H0.
  rewrite (IH (S i)); [done|].
  intros k x' Hk. specialize (H (S k) x' Hk). by rewrite Nat.add_succ_r in H.
Qed.

(** Two resolved loops over the same elements agree under [h] when
    their bodies' results do. *)
Lemma convert_from_fmap {A B C : Type} (f g : nat → A → Promise B) (h : B → C)
    (i : nat) (xs : list A) (ys zs : list B) :
  convert_from f i xs = Resolve ys →
  convert_from g i xs = Resolve zs →
  (∀ k x y z, xs !! k = Some x → f (i + k) x = Resolve y →
     g (i + k) x = Resolve z → h y = h z) →
  h <$> ys = h <$> zs.
Proof.
  revert i ys zs. induction xs as [|x xs IH]; intros i ys zs Hf Hg Hh; simpl in *.
  - by simplify_eq.
  - inv_then Hf. inv_then Hf. inv_then Hg. inv_then Hg. simplify_eq.
    rewrite !fmap_cons. f_equal.
    + apply (Hh 0 x); [done|by rewrite Nat.add_0_r..].
    + eapply (IH (S i)); [done..|].
      intros k x' y z Hk. specialize (Hh (S k) x' y z Hk).
      by rewrite Nat.add_succ_r in Hh.
Qed.

Section ConversionOutcome.

Variable parseSarifMessage : MessageField → option Message.
Variable LocationCreate : option PhysicalLocation → Promise LocationRef.
Variable ExplorerCallbackCommand : string.

Local Abbreviation createCodeFlowStep :=
  (createCodeFlowStep parseSarifMessage LocationCreate ExplorerCallbackCommand).
Local Abbreviation createThreadFlow :=
  (createThreadFlow parseSarifMessage LocationCreate ExplorerCallbackCommand).
Local Abbreviation createCodeFlow :=
  (createCodeFlow parseSarifMessage LocationCreate ExplorerCallbackCommand).
Local Abbreviation create :=
  (create parseSarifMessage LocationCreate ExplorerCallbackCommand).
Local Abbreviation optional_message := (optional_message parseSarifMessage).

Lemma optional_message_Resolve m :
  (∃ o, optional_message m = Resolve o) ↔ message_parses parseSarifMessage m.
Proof.
  unfold CodeFlows.optional_message, parsed_text, message_parses.
  destruct m; (destruct (parseSarifMessage _) as [parsed|] eqn:Hp; simpl);
    split; try (intros [o [=]]); try (intros [[=]|[parsed' [=]]]); eauto.
Qed.

Lemma optional_message_Reject m e :
  optional_message m = Reject e →
  e = TypeError ∧ ¬ message_parses parseSarifMessage m.
Proof.
  intros H. split.
  - unfold CodeFlows.optional_message, parsed_text in H.
    destruct m; [done|..]; destruct (parseSarifMessage _); simpl in H; congruence.
  - intros [o Ho]%optional_message_Resolve. congruence.
Qed.

Lemma createThreadFlow_total sarifTF tid :
  message_parses parseSarifMessage (stf_message sarifTF) →
  (∀ k cFLoc, stf_locations sarifTF !! k = Some cFLoc →
     ∃ loc, LocationCreate (sl_physicalLocation (cfl_location cFLoc)) = Resolve loc) →
  ∃ thread, createThreadFlow sarifTF tid = Resolve thread.
Proof.
  intros [m Hm]%optional_message_Resolve Hsteps.
  unfold CodeFlows.createThreadFlow. rewrite for_each_push_convert, Hm. simpl.
  destruct (convert_from_total
              (λ stepIndex cFLoc,
                 createCodeFlowStep cFLoc (stf_locations sarifTF !! (stepIndex + 1))
                   (tid +:+ "_" +:+ index_to_string stepIndex))
              0 (stf_locations sarifTF)) as [steps' Hs].
  { intros k cFLoc Hk. destruct (Hsteps k cFLoc Hk) as [loc Hloc].
    by eapply createCodeFlowStep_total. }
  rewrite Hs. simpl. eauto.
Qed.

Lemma createCodeFlow_total sarifCF tid :
  message_parses parseSarifMessage (scf_message sarifCF) →
  (∀ j sarifTF, scf_threadFlows sarifCF !! j = Some sarifTF →
     ∃ thread,
       createThreadFlow sarifTF (tid +:+ "_" +:+ index_to_string j) = Resolve thread) →
  ∃ codeFlow, createCodeFlow sarifCF tid = Resolve codeFlow.
Proof.
  intros [m Hm]%optional_message_Resolve Hthreads.
  unfold CodeFlows.createCodeFlow. rewrite for_each_push_convert, Hm. simpl.
  destruct (convert_from_total
              (λ tFIndex sarifTF,
                 createThreadFlow sarifTF (tid +:+ "_" +:+ index_to_string tFIndex))
              0 (scf_threadFlows sarifCF)) as [threads' Ht]; [done|].
  rewrite Ht. simpl. eauto.
Qed.

(** Every level of a resolved conversion resolved. *)
Lemma create_Resolve_flow flows codeFlows i sarifCF :
  create (Some flows) = Resolve (Some codeFlows) →
  flows !! i = Some sarifCF →
  ∃ codeFlow, createCodeFlow sarifCF (index_to_string i) = Resolve codeFlow.
Proof.
  intros Hc Hi. apply create_Resolve in Hc as [_ Hc].
  destruct (convert_from_Resolve _ _ _ _ Hc) as [_ Hk].
  specialize (Hk i). rewrite Hi in Hk. destruct Hk as (codeFlow & _ & ?). eauto.
Qed.

Lemma createCodeFlow_Resolve_thread sarifCF tid codeFlow j sarifTF :
  createCodeFlow sarifCF tid = Resolve codeFlow →
  scf_threadFlows sarifCF !! j = Some sarifTF →
  ∃ thread,
    createThreadFlow sarifTF (tid +:+ "_" +:+ index_to_string j) = Resolve thread.
Proof.
  intros Hc Hj. apply createCodeFlow_Resolve in Hc as [_ Hc].
  destruct (convert_from_Resolve _ _ _ _ Hc) as [_ Hk].
  specialize (Hk j). rewrite Hj in Hk. destruct Hk as (thread & _ & ?). eauto.
Qed.

Lemma createThreadFlow_Resolve_step sarifTF tid thread k cFLoc :
  createThreadFlow sarifTF tid = Resolve thread →
  stf_locations sarifTF !! k = Some cFLoc →
  ∃ loc, LocationCreate (sl_physicalLocation (cfl_location cFLoc)) = Resolve loc.
Proof.
  intros Hc Hk. apply createThreadFlow_Resolve in Hc as (_ & _ & Hc).
  destruct (convert_from_Resolve _ _ _ _ Hc) as [_ Hl].
  specialize (Hl k). rewrite Hk in Hl. destruct Hl as (step & _ & Hstep).
  simpl in Hstep. apply createCodeFlowStep_Resolve in Hstep as (? & _). eauto.
Qed.

(** X1. On a non-empty array [create] resolves exactly when the parser
    has a result for every flow message and every thread message that is
    not [undefined], and the resolver resolves the descriptor of every
    raw location. *)
Theorem create_resolves_iff flows :
  flows ≠ [] →
  (∃ codeFlows, create (Some flows) = Resolve (Some codeFlows)) ↔
  (∀ i sarifCF, flows !! i = Some sarifCF →
     message_parses parseSarifMessage (scf_message sarifCF))
  ∧ (∀ i j sarifTF, raw_thread flows i j = Some sarifTF →
       message_parses parseSarifMessage (stf_message sarifTF))
  ∧ (∀ i j k cFLoc, raw_location flows i j k = Some cFLoc →
       ∃ loc, LocationCreate (sl_physicalLocation (cfl_location cFLoc))
              = Resolve loc).
Proof.
  intros Hne. split.
  - intros [codeFlows Hc]. split; [|split].
    + intros i sarifCF Hi.
      destruct (create_Resolve_flow _ _ _ _ Hc Hi) as [codeFlow Hcf].
      apply createCodeFlow_Resolve in Hcf as [Hm _].
      apply optional_message_Resolve. eauto.
    + intros i j sarifTF Hraw. unfold raw_thread in Hraw.
      destruct (flows !! i) as [sarifCF|] eqn:Hi; [|done]. simpl in Hraw.
      destruct (create_Resolve_flow _ _ _ _ Hc Hi) as [codeFlow Hcf].
      destruct (createCodeFlow_Resolve_thread _ _ _ _ _ Hcf Hraw) as [thread Htf].
      apply createThreadFlow_Resolve in Htf as [Hm _].
      apply optional_message_Resolve. eauto.
    + intros i j k cFLoc (sarifCF & sarifTF & Hi & Hj & Hk)%raw_location_Some.
      destruct (create_Resolve_flow _ _ _ _ Hc Hi) as [codeFlow Hcf].
      destruct (createCodeFlow_Resolve_thread _ _ _ _ _ Hcf Hj) as [thread Htf].
      by eapply createThreadFlow_Resolve_step.
  - intros (Hflows & Hthreads & Hsteps).
    rewrite create_nonempty by done.
    destruct (convert_from_total
                (λ cFIndex sarifCF, createCodeFlow sarifCF (index_to_string cFIndex))
                0 flows) as [codeFlows Hc].
    { intros i sarifCF Hi. simpl.
      apply createCodeFlow_total; [by eapply Hflows|].
      intros j sarifTF Hj. apply createThreadFlow_total.
      - apply (Hthreads i j). unfold raw_thread. by rewrite Hi.
      - intros k cFLoc Hk. apply (Hsteps i j k). apply raw_location_Some. eauto. }
    rewrite Hc. simpl. eauto.
Qed.

(** X2. [create] is rejected with nothing but a [TypeError] for a flow
    or thread message the parser has no result for, or the error the
    resolver rejected the descriptor of some raw location with. *)
Theorem create_Reject_origin flows e :
  create (Some flows) = Reject e →
  (e = TypeError
   ∧ ((∃ i sarifCF, flows !! i = Some sarifCF
                    ∧ ¬ message_parses parseSarifMessage (scf_message sarifCF))
      ∨ (∃ i j sarifTF, raw_thread flows i j = Some sarifTF
                        ∧ ¬ message_parses parseSarifMessage (stf_message sarifTF))))
  ∨ (∃ i j k cFLoc,
       raw_location flows i j k = Some cFLoc
       ∧ LocationCreate (sl_physicalLocation (cfl_location cFLoc)) = Reject e).
Proof.
  intros H. destruct flows as [|sarifCF0 flows0]; [done|].
  rewrite create_nonempty in H by done.
  apply then_Reject_inv in H as [H | (? & _ & [=])].
  apply convert_from_Reject_inv in H as (i & sarifCF & Hi & H). simpl in H.
  unfold CodeFlows.createCodeFlow in H. rewrite for_each_push_convert in H.
  apply then_Reject_inv in H as [H | (m & _ & H)].
  { apply optional_message_Reject in H as [-> Hno]. left. split; [done|]. left. eauto. }
  apply then_Reject_inv in H as [H | (? & _ & [=])].
  apply convert_from_Reject_inv in H as (j & sarifTF & Hj & H). simpl in H.
  unfold CodeFlows.createThreadFlow in H. rewrite for_each_push_convert in H.
  apply then_Reject_inv in H as [H | (m' & _ & H)].
  { apply optional_message_Reject in H as [-> Hno]. left. split; [done|]. right.
    exists i, j, sarifTF. split; [|done]. unfold raw_thread. by rewrite Hi. }
  apply then_Reject_inv in H as [H | (? & _ & [=])].
  apply convert_from_Reject_inv in H as (k & cFLoc & Hk & H). simpl in H.
  apply createCodeFlowStep_Reject in H.
  right. exists i, j, k, cFLoc. split; [|done]. apply raw_location_Some. eauto.
Qed.

End ConversionOutcome.

Section TwoResolvers.

Variable parseSarifMessage : MessageField → option Message.
Variables resolve1 resolve2 : option PhysicalLocation → Promise LocationRef.
Variable ExplorerCallbackCommand : string.

Local Abbreviation create1 :=
  (create parseSarifMessage resolve1 ExplorerCallbackCommand).
Local Abbreviation create2 :=
  (create parseSarifMessage resolve2 ExplorerCallbackCommand).

Lemma createCodeFlowStep_erase cFLoc nextCFLoc tid step1 step2 :
  createCodeFlowStep parseSarifMessage resolve1 ExplorerCallbackCommand
    cFLoc nextCFLoc tid = Resolve step1 →
  createCodeFlowStep parseSarifMessage resolve2 ExplorerCallbackCommand
    cFLoc nextCFLoc tid = Resolve step2 →
  erase_step step1 = erase_step step2.
Proof.
  unfold createCodeFlowStep. intros H1 H2. inv_then H1. inv_then H2.
  destruct (nesting_flags cFLoc nextCFLoc) as [p c].
  by simplify_eq.
Qed.

Lemma createThreadFlow_erase sarifTF tid thread1 thread2 :
  createThreadFlow parseSarifMessage resolve1 ExplorerCallbackCommand sarifTF tid
  = Resolve thread1 →
  createThreadFlow parseSarifMessage resolve2 ExplorerCallbackCommand sarifTF tid
  = Resolve thread2 →
  erase_thread thread1 = erase_thread thread2.
Proof.
  intros H1 H2.
  apply createThreadFlow_Resolve in H1 as (Hm1 & Hid1 & H1).
  apply createThreadFlow_Resolve in H2 as (Hm2 & Hid2 & H2).
  assert (erase_step <$> steps thread1 = erase_step <$> steps thread2) as Hsteps.
  { eapply convert_from_fmap; [exact H1|exact H2|].
    intros k cFLoc s1 s2 _. apply createCodeFlowStep_erase. }
  destruct thread1, thread2. unfold erase_thread, set_steps. simpl in *.
  rewrite Hsteps. congruence.
Qed.

Lemma createCodeFlow_erase sarifCF tid codeFlow1 codeFlow2 :
  createCodeFlow parseSarifMessage resolve1 ExplorerCallbackCommand sarifCF tid
  = Resolve codeFlow1 →
  createCodeFlow parseSarifMessage resolve2 ExplorerCallbackCommand sarifCF tid
  = Resolve codeFlow2 →
  erase_flow codeFlow1 = erase_flow codeFlow2.
Proof.
  intros H1 H2.
  apply createCodeFlow_Resolve in H1 as (Hm1 & H1).
  apply createCodeFlow_Resolve in H2 as (Hm2 & H2).
  assert (erase_thread <$> threads codeFlow1 = erase_thread <$> threads codeFlow2)
    as Hthreads.
  { eapply convert_from_fmap; [exact H1|exact H2|].
    intros j sarifTF t1 t2 _. apply createThreadFlow_erase. }
  destruct codeFlow1, codeFlow2. unfold erase_flow, set_threads. simpl in *.
  rewrite Hthreads. congruence.
Qed.

Lemma create_erase_locations flows codeFlows1 codeFlows2 :
  create1 (Some flows) = Resolve (Some codeFlows1) →
  create2 (Some flows) = Resolve (Some codeFlows2) →
  erase_locations codeFlows1 = erase_locations codeFlows2.
Proof.
  intros H1 H2.
  apply create_Resolve in H1 as [_ H1]. apply create_Resolve in H2 as [_ H2].
  unfold erase_locations.
  eapply convert_from_fmap; [exact H1|exact H2|].
  intros i sarifCF cf1 cf2 _. apply createCodeFlow_erase.
Qed.

(** X9. Two conversions of the same input that resolve, with whatever
    two resolvers, give trees that differ in step locations only: the
    shape, and at every index triple the classification, the labels, the
    id and the command, do not depend on the resolver. *)
Theorem create_resolver_independent flows codeFlows1 codeFlows2 :
  create1 (Some flows) = Resolve (Some codeFlows1) →
  create2 (Some flows) = Resolve (Some codeFlows2) →
  erase_locations codeFlows1 = erase_locations codeFlows2
  ∧ length codeFlows1 = length codeFlows2
  ∧ ∀ i j k step1, read_step codeFlows1 i j k = Some step1 →
      ∃ step2, read_step codeFlows2 i j k = Some step2
        ∧ isParent step1 = isParent step2
        ∧ isLastChild step1 = isLastChild step2
        ∧ message step1 = message step2
        ∧ messageWithStep step1 = messageWithStep step2
        ∧ traversalId step1 = traversalId step2
        ∧ codeLensCommand step1 = codeLensCommand step2.
Proof.
  intros H1 H2. pose proof (create_erase_locations _ _ _ H1 H2) as He.
  split; [done|]. split.
  - apply (f_equal length) in He. unfold erase_locations in He.
    by rewrite !length_fmap in He.
  - intros i j k step1 Hs1.
    pose proof (read_step_erase codeFlows2 i j k) as Hr.
    rewrite <- He, read_step_erase, Hs1 in Hr. simpl in Hr.
    destruct (read_step codeFlows2 i j k) as [step2|]; [|done].
    exists step2. split; [done|]. injection Hr as Hr.
    destruct step1, step2. unfold erase_step, set_location in Hr. simpl in *.
    by simplify_eq.
Qed.

(** X14. [create] consults the resolver only for the descriptors of the
    raw locations of its input: two resolvers that agree on those give
    the same outcome, rejections included. *)
Theorem create_resolver_local flows :
  (∀ i j k cFLoc,
     raw_location flows i j k = Some cFLoc →
     resolve1 (sl_physicalLocation (cfl_location cFLoc))
     = resolve2 (sl_physicalLocation (cfl_location cFLoc))) →
  create1 (Some flows) = create2 (Some flows).
Proof.
  intros Hagree. destruct flows as [|sarifCF0 flows0]; [done|].
  rewrite !create_nonempty by done.
  rewrite (convert_from_ext _
             (λ cFIndex sarifCF,
                createCodeFlow parseSarifMessage resolve2 ExplorerCallbackCommand
                  sarifCF (index_to_string cFIndex))); [done|].
  intros i sarifCF Hi. simpl.
  unfold createCodeFlow. rewrite !for_each_push_convert.
  rewrite (convert_from_ext _
             (λ tFIndex sarifTF,
                createThreadFlow parseSarifMessage resolve2 ExplorerCallbackCommand
                  sarifTF (index_to_string i +:+ "_" +:+ index_to_string tFIndex)));
    [done|].
  intros j sarifTF Hj. simpl.
  unfold createThreadFlow. rewrite !for_each_push_convert.
  rewrite (convert_from_ext _
             (λ stepIndex cFLoc,
                createCodeFlowStep parseSarifMessage resolve2 ExplorerCallbackCommand
                  cFLoc (stf_locations sarifTF !! (stepIndex + 1))
                  ((index_to_string i +:+ "_" +:+ index_to_string j)
                   +:+ "_" +:+ index_to_string stepIndex)));
    [done|].
  intros k cFLoc Hk. simpl.
  unfold createCodeFlowStep. rewrite (Hagree i j k cFLoc); [done|].
  apply raw_location_Some. eauto.
Qed.

End TwoResolvers.

(* ================================================================== *)
(** ** Further properties of the remap pass                            *)
(* ================================================================== *)

(** A step is its location and everything else. *)
Lemma step_ext (a b : CodeFlowStep) :
  erase_step a = erase_step b → location a = location b → a = b.
Proof.
  destruct a, b. unfold erase_step, set_location. simpl.
  intros [= -> -> -> -> -> -> -> -> ->] ->. done.
Qed.

Lemma steps_ext (a b : list CodeFlowStep) :
  erase_step <$> a = erase_step <$> b →
  (∀ k sa sb, a !! k = Some sa → b !! k = Some sb → location sa = location sb) →
  a = b.
Proof.
  revert b. induction a as [|sa a IH]; intros [|sb b] He Hloc; try done.
  rewrite !fmap_cons in He.
  assert (erase_step sa = erase_step sb
          ∧ erase_step <$> a = erase_step <$> b) as [Hs He'] by (split; congruence).
  f_equal.
  - apply step_ext; [done|]. by apply (Hloc 0).
  - apply IH; [done|]. intros k sa' sb'. apply (Hloc (S k)).
Qed.

Lemma threads_ext (a b : list ThreadFlow) :
  erase_thread <$> a = erase_thread <$> b →
  (∀ j ta tb k sa sb, a !! j = Some ta → b !! j = Some tb →
     steps ta !! k = Some sa → steps tb !! k = Some sb →
     location sa = location sb) →
  a = b.
Proof.
  revert b. induction a as [|ta a IH]; intros [|tb b] He Hloc; try done.
  rewrite !fmap_cons in He.
  assert (erase_thread ta = erase_thread tb
          ∧ erase_thread <$> a = erase_thread <$> b) as [Ht He'] by (split; congruence).
  f_equal.
  - destruct ta as [ida ma sa], tb as [idb mb sb].
    unfold erase_thread, set_steps in Ht. simpl in Ht.
    injection Ht as -> -> Hs. f_equal.
    apply steps_ext; [done|]. intros k sa0 sb0 Ha Hb.
    exact (Hloc 0 _ _ k sa0 sb0 eq_refl eq_refl Ha Hb).
  - apply IH; [done|]. intros j. apply (Hloc (S j)).
Qed.

(** Two trees that agree outside the locations and on the location at
    every index triple are the same tree. *)
Lemma tree_ext (a b : list CodeFlow) :
  erase_locations a = erase_locations b →
  (∀ i j k sa sb, read_step a i j k = Some sa → read_step b i j k = Some sb →
     location sa = location sb) →
  a = b.
Proof.
  unfold erase_locations, read_step, read_thread.
  revert b. induction a as [|ca a IH]; intros [|cb b] He Hloc; try done.
  rewrite !fmap_cons in He.
  assert (erase_flow ca = erase_flow cb
          ∧ erase_flow <$> a = erase_flow <$> b) as [Hc He'] by (split; congruence).
  f_equal.
  - destruct ca as [ma ta], cb as [mb tb].
    unfold erase_flow, set_threads in Hc. simpl in Hc.
    injection Hc as -> Ht. f_equal.
    apply threads_ext; [done|].
    intros j ta' tb' k sa sb Hja Hjb Hka Hkb.
    apply (Hloc 0 j k); simpl; [by rewrite Hja|by rewrite Hjb].
  - apply IH; [done|]. intros i. apply (Hloc (S i)).
Qed.

Lemma erase_locations_read_step a b i j k sb :
  erase_locations a = erase_locations b →
  read_step b i j k = Some sb →
  ∃ sa, read_step a i j k = Some sa ∧ erase_step sa = erase_step sb.
Proof.
  intros He Hb.
  pose proof (read_step_erase a i j k) as Ha.
  rewrite He, read_step_erase, Hb in Ha.
  destruct (read_step a i j k) as [sa|]; [|done].
  exists sa. split; [done|]. symmetry. by apply (inj Some).
Qed.

Section RemapFurther.

Variable LocationCreate : option PhysicalLocation → Promise LocationRef.

Local Abbreviation tryRemapCodeFlows := (tryRemapCodeFlows LocationCreate).
Local Abbreviation remap_steps_from := (remap_steps_from LocationCreate).
Local Abbreviation remap_threads_from := (remap_threads_from LocationCreate).
Local Abbreviation remap_flows_from := (remap_flows_from LocationCreate).

(** *** Nothing to remap *)

Lemma remap_steps_from_settled sarifLocs k0 steps :
  (∀ k step, steps !! k = Some step → needs_remap step = false) →
  remap_steps_from sarifLocs k0 steps = (Resolve tt, steps).
Proof.
  revert k0. induction steps as [|step rest IH]; intros k0 H; [done|]. simpl.
  rewrite (H 0 step eq_refl), (IH (S k0)); [done|].
  intros k step'. apply (H (S k)).
Qed.

Lemma remap_threads_from_settled sarifLocs j0 threads :
  (∀ j thread k step, threads !! j = Some thread → steps thread !! k = Some step →
     needs_remap step = false) →
  remap_threads_from sarifLocs j0 threads = (Resolve tt, threads).
Proof.
  revert j0. induction threads as [|thread rest IH]; intros j0 H; [done|]. simpl.
  rewrite remap_steps_from_settled by (intros k step; by apply (H 0 thread)).
  rewrite (IH (S j0)), set_steps_id; [done|].
  intros j thread'. apply (H (S j)).
Qed.

Lemma remap_flows_from_settled sarifLocs i0 codeFlows :
  (∀ i j k step, read_step codeFlows i j k = Some step → needs_remap step = false) →
  remap_flows_from sarifLocs i0 codeFlows = (Resolve tt, codeFlows).
Proof.
  unfold read_step, read_thread.
  revert i0. induction codeFlows as [|codeFlow rest IH]; intros i0 H; [done|]. simpl.
  rewrite remap_threads_from_settled.
  - rewrite (IH (S i0)), set_threads_id; [done|].
    intros i. apply (H (S i)).
  - intros j thread k step Hj Hk. apply (H 0 j k). simpl. by rewrite Hj.
Qed.

(** X12. On a tree in which every step's location is [null] or mapped
    (the empty tree among them) a remap pass resolves and leaves the
    tree as it is, whatever the raw array: the raw array is not read and
    the resolver is not called. *)
Theorem tryRemapCodeFlows_nothing_to_do codeFlows raw :
  (∀ i j k step, read_step codeFlows i j k = Some step → needs_remap step = false) →
  tryRemapCodeFlows codeFlows raw = (Resolve tt, codeFlows).
Proof.
  intros H. rewrite tryRemapCodeFlows_by_recursion.
  by apply remap_flows_from_settled.
Qed.

End RemapFurther.

Section RemapSettles.

Variable LocationCreate : option PhysicalLocation → Promise LocationRef.

Local Abbreviation tryRemapCodeFlows := (tryRemapCodeFlows LocationCreate).
Local Abbreviation remap_steps_from := (remap_steps_from LocationCreate).
Local Abbreviation remap_threads_from := (remap_threads_from LocationCreate).
Local Abbreviation remap_flows_from := (remap_flows_from LocationCreate).

(** After a pass that resolved with a resolver whose answers are all
    [null] or mapped, no step needs a remap. *)
Lemma remap_flows_from_all_settled sarifLocs codeFlows codeFlows' :
  remap_flows_from sarifLocs 0 codeFlows = (Resolve tt, codeFlows') →
  (∀ d loc, LocationCreate d = Resolve loc → unmapped loc = false) →
  ∀ i j k step, read_step codeFlows' i j k = Some step → needs_remap step = false.
Proof.
  intros H Hmapped i j k step' Hs'.
  pose proof (remap_flows_from_erase LocationCreate sarifLocs 0 codeFlows) as He.
  rewrite H in He. simpl in He. symmetry in He.
  destruct (erase_locations_read_step _ _ i j k step' He Hs') as (step & Hs & _).
  destruct (remap_flows_from_lookup _ _ _ _ _ _ i j k step H Hs) as [Hsame Hnew].
  destruct (needs_remap step) eqn:Hneeds.
  - destruct (Hnew eq_refl eq_refl) as (raw & loc & _ & Hloc & Hafter).
    rewrite Hs' in Hafter. injection Hafter as ->.
    rewrite needs_remap_set_location. by apply (Hmapped _ _ Hloc).
  - rewrite Hs' in Hsame. by injection (Hsame eq_refl) as ->.
Qed.

(** X13. Once a pass has resolved with a resolver whose answers are all
    [null] or mapped, the tree is settled: every later pass, with any
    resolver and any raw array, resolves and changes nothing. *)
Theorem tryRemapCodeFlows_settles codeFlows raw codeFlows' :
  tryRemapCodeFlows codeFlows raw = (Resolve tt, codeFlows') →
  (∀ d loc, LocationCreate d = Resolve loc → unmapped loc = false) →
  (∀ i j k step, read_step codeFlows' i j k = Some step → needs_remap step = false)
  ∧ ∀ (later : option PhysicalLocation → Promise LocationRef) raw',
      CodeFlows.tryRemapCodeFlows later codeFlows' raw' = (Resolve tt, codeFlows').
Proof.
  rewrite tryRemapCodeFlows_by_recursion. intros H Hmapped.
  pose proof (remap_flows_from_all_settled _ _ _ H Hmapped) as Hsettled.
  split; [done|]. intros later raw'.
  rewrite tryRemapCodeFlows_by_recursion. by apply remap_flows_from_settled.
Qed.

(** *** The raw array is read only where a step needs a remap *)

Lemma remap_steps_from_ext sarifLocs sarifLocs' k0 steps :
  (∀ k step, steps !! k = Some step → needs_remap step = true →
     sarifLocs (k0 + k) = sarifLocs' (k0 + k)) →
  remap_steps_from sarifLocs k0 steps = remap_steps_from sarifLocs' k0 steps.
Proof.
  revert k0. induction steps as [|step rest IH]; intros k0 H; [done|]. simpl.
  rewrite (IH (S k0)).
  - destruct (needs_remap step) eqn:Hneeds; [|done].
    pose proof (H 0 step eq_refl Hneeds) as H0. rewrite Nat.add_0_r in H0.
    by rewrite H0.
  - intros k step' Hk Hneeds. specialize (H (S k) step' Hk Hneeds).
    by rewrite Nat.add_succ_r in H.
Qed.

Lemma remap_threads_from_ext sarifLocs sarifLocs' j0 threads :
  (∀ j thread k step, threads !! j = Some thread → steps thread !! k = Some step →
     needs_remap step = true → sarifLocs (j0 + j) k = sarifLocs' (j0 + j) k) →
  remap_threads_from sarifLocs j0 threads = remap_threads_from sarifLocs' j0 threads.
Proof.
  revert j0. induction threads as [|thread rest IH]; intros j0 H; [done|]. simpl.
  rewrite (IH (S j0)).
  - rewrite (remap_steps_from_ext (sarifLocs j0) (sarifLocs' j0)); [done|].
    intros k step Hk Hneeds. specialize (H 0 thread k step eq_refl Hk Hneeds).
    by rewrite Nat.add_0_r in H.
  - intros j thread' k step Hj Hk Hneeds.
    specialize (H (S j) thread' k step Hj Hk Hneeds).
    by rewrite Nat.add_succ_r in H.
Qed.

Lemma remap_flows_from_ext sarifLocs sarifLocs' i0 codeFlows :
  (∀ i j k step, read_step codeFlows i j k = Some step → needs_remap step = true →
     sarifLocs (i0 + i) j k = sarifLocs' (i0 + i) j k) →
  remap_flows_from sarifLocs i0 codeFlows = remap_flows_from sarifLocs' i0 codeFlows.
Proof.
  unfold read_step, read_thread.
  revert i0. induction codeFlows as [|codeFlow rest IH]; intros i0 H; [done|]. simpl.
  rewrite (IH (S i0)).
  - rewrite (remap_threads_from_ext (sarifLocs i0) (sarifLocs' i0)); [done|].
    intros j thread k step Hj Hk Hneeds.
    specialize (H 0 j k step). simpl in H. rewrite Hj in H.
    specialize (H Hk Hneeds). by rewrite Nat.add_0_r in H.
  - intros i j k step Hs Hneeds. specialize (H (S i) j k step Hs Hneeds).
    by rewrite Nat.add_succ_r in H.
Qed.

(** X15. A remap pass reads the raw array only at the index triples of
    the steps that need a remap: two raw arrays with the same raw
    location at each of those triples give the same outcome and the same
    tree, whatever else they hold and however long they are. *)
Theorem tryRemapCodeFlows_reads_needed_only codeFlows raw raw' :
  (∀ i j k step, read_step codeFlows i j k = Some step → needs_remap step = true →
     sarif_location raw i j k = sarif_location raw' i j k) →
  tryRemapCodeFlows codeFlows raw = tryRemapCodeFlows codeFlows raw'.
Proof.
  intros H. rewrite !tryRemapCodeFlows_by_recursion.
  by apply remap_flows_from_ext.
Qed.

End RemapSettles.

Section RemapAfterCreate.

Variable parseSarifMessage : MessageField → option Message.
Variables resolve1 resolve2 : option PhysicalLocation → Promise LocationRef.
Variable ExplorerCallbackCommand : string.

(** X10. The remap pass completes a conversion. Convert an input with
    one resolver, then remap the tree against the same input with a
    second resolver that stands by every [null] or mapped answer of the
    first: the pass resolves and leaves the tree that converting the
    input with the second resolver gives. *)
Theorem tryRemapCodeFlows_completes_create flows codeFlows1 codeFlows2 :
  create parseSarifMessage resolve1 ExplorerCallbackCommand (Some flows)
  = Resolve (Some codeFlows1) →
  create parseSarifMessage resolve2 ExplorerCallbackCommand (Some flows)
  = Resolve (Some codeFlows2) →
  (∀ d loc, resolve1 d = Resolve loc → unmapped loc = false →
     resolve2 d = Resolve loc) →
  tryRemapCodeFlows resolve2 codeFlows1 flows = (Resolve tt, codeFlows2).
Proof.
  intros H1 H2 Hagree. rewrite tryRemapCodeFlows_by_recursion.
  assert (∀ i j k step1, read_step codeFlows1 i j k = Some step1 →
            ∃ cFLoc step2,
              sarif_location flows i j k = Some (cfl_location cFLoc)
              ∧ resolve1 (sl_physicalLocation (cfl_location cFLoc))
                = Resolve (location step1)
              ∧ read_step codeFlows2 i j k = Some step2
              ∧ resolve2 (sl_physicalLocation (cfl_location cFLoc))
                = Resolve (location step2)) as Hboth.
  { intros i j k step1 Hs1.
    destruct (create_read_step_raw _ _ _ _ _ _ _ _ _ H1 Hs1) as (cFLoc & Hraw & Hstep1).
    pose proof (create_erase_locations _ _ _ _ _ _ _ H1 H2) as He.
    symmetry in He.
    destruct (erase_locations_read_step _ _ i j k step1 He Hs1) as (step2 & Hs2 & _).
    destruct (create_read_step_raw _ _ _ _ _ _ _ _ _ H2 Hs2)
      as (cFLoc' & Hraw' & Hstep2).
    simplify_eq. exists cFLoc, step2.
    rewrite sarif_location_raw_location, Hraw.
    apply createCodeFlowStep_Resolve in Hstep1 as (? & _).
    apply createCodeFlowStep_Resolve in Hstep2 as (? & _). done. }
  destruct (remap_flows_from resolve2 (sarif_location flows) 0 codeFlows1)
    as [p codeFlows'] eqn:Hremap.
  assert (p = Resolve tt) as ->.
  { pose proof (remap_flows_from_total resolve2 (sarif_location flows) 0 codeFlows1)
      as Htotal.
    rewrite Hremap in Htotal. apply Htotal.
    intros i j k step1 Hs1 _.
    destruct (Hboth i j k step1 Hs1) as (cFLoc & step2 & ? & _ & _ & ?). eauto. }
  f_equal. apply tree_ext.
  - pose proof (remap_flows_from_erase resolve2 (sarif_location flows) 0 codeFlows1)
      as He.
    rewrite Hremap in He. simpl in He. rewrite He.
    by eapply create_erase_locations.
  - intros i j k step' step2 Hs' Hs2.
    pose proof (remap_flows_from_erase resolve2 (sarif_location flows) 0 codeFlows1)
      as He.
    rewrite Hremap in He. simpl in He. symmetry in He.
    destruct (erase_locations_read_step _ _ i j k step' He Hs') as (step1 & Hs1 & _).
    destruct (Hboth i j k step1 Hs1) as (cFLoc & step2' & Hraw & Hr1 & Hs2' & Hr2).
    simplify_eq.
    destruct (remap_flows_from_lookup _ _ _ _ _ _ i j k step1 Hremap Hs1)
      as [Hsame Hnew].
    destruct (needs_remap step1) eqn:Hneeds.
    + destruct (Hnew eq_refl eq_refl) as (raw & loc & Hraw' & Hloc & Hafter).
      rewrite Hs' in Hafter. simpl in Hraw'. rewrite Hraw in Hraw'.
      injection Hraw' as <-. rewrite Hr2 in Hloc. injection Hloc as <-.
      by injection Hafter as ->.
    + rewrite Hs' in Hsame. injection (Hsame eq_refl) as ->.
      rewrite needs_remap_unmapped in Hneeds.
      pose proof (Hagree _ _ Hr1 Hneeds). congruence.
Qed.

End RemapAfterCreate.

Section RemapRejected.

Variable LocationCreate : option PhysicalLocation → Promise LocationRef.

Local Abbreviation tryRemapCodeFlows := (tryRemapCodeFlows LocationCreate).
Local Abbreviation remap_steps_from := (remap_steps_from LocationCreate).
Local Abbreviation remap_threads_from := (remap_threads_from LocationCreate).
Local Abbreviation remap_flows_from := (remap_flows_from LocationCreate).
Local Abbreviation remapped := (remapped LocationCreate).
Local Abbreviation remap_fails := (remap_fails LocationCreate).

(** *** A rejected pass *)

Lemma remap_steps_from_Reject sarifLocs k0 steps e steps' :
  remap_steps_from sarifLocs k0 steps = (Reject e, steps') →
  ∃ k step,
    steps !! k = Some step
    ∧ needs_remap step = true
    ∧ remap_fails (sarifLocs (k0 + k)) e
    ∧ (∀ k' step', (k' < k)%nat → steps !! k' = Some step' →
         remapped (Resolve tt) (sarifLocs (k0 + k')) step' (steps' !! k'))
    ∧ (∀ k' step', (k ≤ k')%nat → steps !! k' = Some step' → steps' !! k' = Some step').
Proof.
  revert k0 steps'. induction steps as [|step0 rest IH]; intros k0 steps' H; [done|].
  simpl in H.
  destruct (needs_remap step0) eqn:Hneeds.
  - destruct (sarifLocs k0) as [raw|] eqn:Hraw.
    + destruct (LocationCreate _) as [loc|e'] eqn:Hloc.
      * destruct (remap_steps_from sarifLocs (S k0) rest) as [p rest'] eqn:Hrest.
        injection H as -> <-.
        destruct (IH _ _ Hrest) as (k & step & Hk & Hn & Hfails & Hbefore & Hafter).
        exists (S k), step. rewrite Nat.add_succ_r.
        split; [done|]. split; [done|]. split; [done|]. split.
        -- intros [|k'] step' Hlt Hk'; simpl in *.
           ++ injection Hk' as <-. rewrite Nat.add_0_r. split; [congruence|].
              intros _ _. by exists raw, loc.
           ++ rewrite Nat.add_succ_r. apply Hbefore; [lia|done].
        -- intros [|k'] step' Hle Hk'; [lia|]. simpl in *. apply Hafter; [lia|done].
      * injection H as <- <-. exists 0, step0. rewrite Nat.add_0_r.
        split; [done|]. split; [done|].
        split; [right; by exists raw|]. split; [intros; lia|done].
    + injection H as <- <-. exists 0, step0. rewrite Nat.add_0_r.
      split; [done|]. split; [done|].
      split; [by left|]. split; [intros; lia|done].
  - destruct (remap_steps_from sarifLocs (S k0) rest) as [p rest'] eqn:Hrest.
    injection H as -> <-.
    destruct (IH _ _ Hrest) as (k & step & Hk & Hn & Hfails & Hbefore & Hafter).
    exists (S k), step. rewrite Nat.add_succ_r.
    split; [done|]. split; [done|]. split; [done|]. split.
    + intros [|k'] step' Hlt Hk'; simpl in *.
      * injection Hk' as <-. split; [done|congruence].
      * rewrite Nat.add_succ_r. apply Hbefore; [lia|done].
    + intros [|k'] step' Hle Hk'; [lia|]. simpl in *. apply Hafter; [lia|done].
Qed.

Lemma remap_threads_from_Reject sarifLocs j0 threads e threads' :
  remap_threads_from sarifLocs j0 threads = (Reject e, threads') →
  ∃ j thread k step,
    threads !! j = Some thread
    ∧ steps thread !! k = Some step
    ∧ needs_remap step = true
    ∧ remap_fails (sarifLocs (j0 + j) k) e
    ∧ (∀ j' thread' k' step',
         (j' < j)%nat ∨ (j' = j ∧ (k' < k)%nat) →
         threads !! j' = Some thread' → steps thread' !! k' = Some step' →
         remapped (Resolve tt) (sarifLocs (j0 + j') k') step'
           (t ← threads' !! j'; steps t !! k'))
    ∧ (∀ j' thread' k' step',
         ¬ ((j' < j)%nat ∨ (j' = j ∧ (k' < k)%nat)) →
         threads !! j' = Some thread' → steps thread' !! k' = Some step' →
         (t ← threads' !! j'; steps t !! k') = Some step').
Proof.
  revert j0 threads'.
  induction threads as [|thread0 rest IH]; intros j0 threads' H; [done|].
  simpl in H.
  destruct (remap_steps_from (sarifLocs j0) 0 (steps thread0)) as [p0 steps'] eqn:Hsteps.
  destruct p0 as [[]|e0].
  - destruct (remap_threads_from sarifLocs (S j0) rest) as [p rest'] eqn:Hrest.
    injection H as -> <-.
    destruct (IH _ _ Hrest)
      as (j & thread & k & step & Hj & Hk & Hn & Hfails & Hbefore & Hafter).
    exists (S j), thread, k, step. rewrite Nat.add_succ_r.
    split; [done|]. split; [done|]. split; [done|]. split; [done|]. split.
    + intros [|j'] thread' k' step' Hlt Hj' Hk'; simpl in *.
      * injection Hj' as <-. rewrite Nat.add_0_r.
        exact (remap_steps_from_lookup _ _ 0 _ _ _ k' step' Hsteps Hk').
      * rewrite Nat.add_succ_r. eapply Hbefore; [lia|done..].
    + intros [|j'] thread' k' step' Hnlt Hj' Hk'; [lia|]. simpl in *.
      eapply Hafter; [lia|done..].
  - injection H as <- <-.
    destruct (remap_steps_from_Reject _ _ _ _ _ Hsteps)
      as (k & step & Hk & Hn & Hfails & Hbefore & Hafter).
    exists 0, thread0, k, step. rewrite Nat.add_0_r.
    split; [done|]. split; [done|]. split; [done|]. split; [done|]. split.
    + intros [|j'] thread' k' step' Hlt Hj' Hk'; [|lia]. simpl in *.
      injection Hj' as <-. rewrite Nat.add_0_r. apply Hbefore; [lia|done].
    + intros [|j'] thread' k' step' Hnlt Hj' Hk'; simpl in *.
      * injection Hj' as <-. apply Hafter; [lia|done].
      * by rewrite Hj'.
Qed.

Lemma remap_flows_from_Reject sarifLocs i0 codeFlows e codeFlows' :
  remap_flows_from sarifLocs i0 codeFlows = (Reject e, codeFlows') →
  ∃ i j k step,
    read_step codeFlows i j k = Some step
    ∧ needs_remap step = true
    ∧ remap_fails (sarifLocs (i0 + i) j k) e
    ∧ (∀ i' j' k' step',
         visited_before i' j' k' i j k →
         read_step codeFlows i' j' k' = Some step' →
         remapped (Resolve tt) (sarifLocs (i0 + i') j' k') step'
           (read_step codeFlows' i' j' k'))
    ∧ (∀ i' j' k' step',
         ¬ visited_before i' j' k' i j k →
         read_step codeFlows i' j' k' = Some step' →
         read_step codeFlows' i' j' k' = Some step').
Proof.
  unfold read_step, read_thread, visited_before.
  revert i0 codeFlows'.
  induction codeFlows as [|codeFlow0 rest IH]; intros i0 codeFlows' H; [done|].
  simpl in H.
  destruct (remap_threads_from (sarifLocs i0) 0 (threads codeFlow0))
    as [p0 threads'] eqn:Hthreads.
  destruct p0 as [[]|e0].
  - destruct (remap_flows_from sarifLocs (S i0) rest) as [p rest'] eqn:Hrest.
    injection H as -> <-.
    destruct (IH _ _ Hrest) as (i & j & k & step & Hs & Hn & Hfails & Hbefore & Hafter).
    exists (S i), j, k, step. rewrite Nat.add_succ_r.
    split; [done|]. split; [done|]. split; [done|]. split.
    + intros [|i'] j' k' step' Hlt Hs'; simpl in *.
      * rewrite Nat.add_0_r.
        destruct (threads codeFlow0 !! j') as [thread'|] eqn:Hj'; [|done].
        simpl in Hs'.
        exact (remap_threads_from_lookup _ _ 0 _ _ _ j' thread' k' step'
                 Hthreads Hj' Hs').
      * rewrite Nat.add_succ_r. apply Hbefore; [lia|done].
    + intros [|i'] j' k' step' Hnlt Hs'; [lia|]. simpl in *.
      apply Hafter; [lia|done].
  - injection H as <- <-.
    destruct (remap_threads_from_Reject _ _ _ _ _ Hthreads)
      as (j & thread & k & step & Hj & Hk & Hn & Hfails & Hbefore & Hafter).
    exists 0, j, k, step. rewrite Nat.add_0_r. simpl. rewrite Hj. simpl.
    split; [done|]. split; [done|]. split; [done|]. split.
    + intros [|i'] j' k' step' Hlt Hs'; [|lia]. simpl in *.
      rewrite Nat.add_0_r.
      destruct (threads codeFlow0 !! j') as [thread'|] eqn:Hj'; [|done].
      simpl in Hs'. eapply Hbefore; [lia|done..].
    + intros [|i'] j' k' step' Hnlt Hs'; simpl in *.
      * destruct (threads codeFlow0 !! j') as [thread'|] eqn:Hj'; [|done].
        simpl in Hs'. eapply Hafter; [lia|done..].
      * done.
Qed.

(** X11. A rejected remap pass stopped at one step: a step that needed a
    remap and whose raw location is missing (the error is a [TypeError])
    or whose descriptor the resolver rejected (the error is the
    resolver's). Every step the loops reach before it is remapped as in a
    pass that resolves; that step and every step after it are the steps
    they were. *)
Theorem tryRemapCodeFlows_rejected codeFlows raw e codeFlows' :
  tryRemapCodeFlows codeFlows raw = (Reject e, codeFlows') →
  ∃ i j k step,
    read_step codeFlows i j k = Some step
    ∧ needs_remap step = true
    ∧ remap_fails (sarif_location raw i j k) e
    ∧ (∀ i' j' k' step',
         visited_before i' j' k' i j k →
         read_step codeFlows i' j' k' = Some step' →
         remapped (Resolve tt) (sarif_location raw i' j' k') step'
           (read_step codeFlows' i' j' k'))
    ∧ (∀ i' j' k' step',
         ¬ visited_before i' j' k' i j k →
         read_step codeFlows i' j' k' = Some step' →
         read_step codeFlows' i' j' k' = Some step').
Proof.
  rewrite tryRemapCodeFlows_by_recursion. intros H.
  destruct (remap_flows_from_Reject _ _ _ _ _ H)
    as (i & j & k & step & Hs & Hn & Hfails & Hbefore & Hafter).
  exists i, j, k, step. done.
Qed.

End RemapRejected.

(* ================================================================== *)
(** ** The further statements on the sample inputs                     *)
(* ================================================================== *)

Example later_tree_converted :
  create sample_parser later_resolver sample_command (Some sample_flows)
  = Resolve (Some later_tree).
Proof. vm_compute. reflexivity. Qed.

(** A property of every step of a tree, from the property of every
    element of its lists. *)
Lemma read_step_Forall (P : CodeFlowStep → Prop) (h : list CodeFlow) :
  Forall (λ codeFlow, Forall (λ thread, Forall P (steps thread)) (threads codeFlow)) h →
  ∀ i j k step, read_step h i j k = Some step → P step.
Proof.
  intros Hall i j k step Hs. unfold read_step, read_thread in Hs.
  destruct (h !! i) as [codeFlow|] eqn:Hi; [|done]. simpl in Hs.
  destruct (threads codeFlow !! j) as [thread|] eqn:Hj; [|done]. simpl in Hs.
  eapply Forall_lookup_1 in Hall; [|done].
  eapply Forall_lookup_1 in Hall; [|done].
  by eapply Forall_lookup_1 in Hall.
Qed.

Lemma create_resolves_iff_witness :
  sample_flows ≠ []
  ∧ ((∃ codeFlows,
        create sample_parser sample_resolver sample_command (Some sample_flows)
        = Resolve (Some codeFlows)) ↔
     (∀ i sarifCF, sample_flows !! i = Some sarifCF →
        message_parses sample_parser (scf_message sarifCF))
     ∧ (∀ i j sarifTF, raw_thread sample_flows i j = Some sarifTF →
          message_parses sample_parser (stf_message sarifTF))
     ∧ (∀ i j k cFLoc, raw_location sample_flows i j k = Some cFLoc →
          ∃ loc, sample_resolver (sl_physicalLocation (cfl_location cFLoc))
                 = Resolve loc)).
Proof.
  split; [discriminate|].
  apply (create_resolves_iff sample_parser sample_resolver sample_command sample_flows).
  discriminate.
Defined.

Lemma create_Reject_origin_witness :
  create sample_parser sample_resolver sample_command (Some broken_flows)
  = Reject (ResolverError "cannot read broken.c")
  ∧ ((ResolverError "cannot read broken.c" = TypeError
      ∧ ((∃ i sarifCF, broken_flows !! i = Some sarifCF
                       ∧ ¬ message_parses sample_parser (scf_message sarifCF))
         ∨ (∃ i j sarifTF, raw_thread broken_flows i j = Some sarifTF
                           ∧ ¬ message_parses sample_parser (stf_message sarifTF))))
     ∨ (∃ i j k cFLoc,
          raw_location broken_flows i j k = Some cFLoc
          ∧ sample_resolver (sl_physicalLocation (cfl_location cFLoc))
            = Reject (ResolverError "cannot read broken.c"))).
Proof.
  split; [vm_compute; reflexivity|].
  apply (create_Reject_origin sample_parser sample_resolver sample_command
           broken_flows).
  vm_compute. reflexivity.
Defined.

Lemma create_never_empty_witness :
  create sample_parser sample_resolver sample_command (Some sample_flows)
  = Resolve (Some sample_tree)
  ∧ (Some sample_tree = None ↔ Some sample_flows = None ∨ Some sample_flows = Some [])
  ∧ Some sample_tree ≠ Some [].
Proof.
  split; [vm_compute; reflexivity|].
  apply (create_never_empty sample_parser sample_resolver sample_command
           (Some sample_flows) (Some sample_tree)).
  vm_compute. reflexivity.
Defined.

Lemma create_copies_raw_fields_witness :
  create sample_parser sample_resolver sample_command (Some sample_flows)
  = Resolve (Some sample_tree)
  ∧ (∀ i j k step, read_step sample_tree i j k = Some step →
       ∃ cFLoc,
         raw_location sample_flows i j k = Some cFLoc
         ∧ stepId step = cfl_step cFLoc
         ∧ state step = cfl_state cFLoc
         ∧ importance step = match cfl_importance cFLoc with
                             | Some i => i
                             | None => important
                             end
         ∧ sample_resolver (sl_physicalLocation (cfl_location cFLoc))
           = Resolve (location step))
  ∧ (∀ i j thread, read_thread sample_tree i j = Some thread →
       ∃ sarifTF,
         raw_thread sample_flows i j = Some sarifTF
         ∧ tf_id thread = stf_id sarifTF
         ∧ length (steps thread) = length (stf_locations sarifTF)).
Proof.
  split; [vm_compute; reflexivity|].
  apply (create_copies_raw_fields sample_parser sample_resolver sample_command
           sample_flows sample_tree).
  vm_compute. reflexivity.
Defined.

Lemma create_selection_command_witness :
  create sample_parser sample_resolver sample_command (Some sample_flows)
  = Resolve (Some sample_tree)
  ∧ (∀ i j k step, read_step sample_tree i j k = Some step →
       codeLensCommand step =
         {| arguments := [ {| request := "CodeFlowTreeSelectionChange";
                              treeid_step := traversal_id i j k |} ];
            command := sample_command;
            title := messageWithStep step |})
  ∧ (∀ i j k step i' j' k' step',
       read_step sample_tree i j k = Some step →
       read_step sample_tree i' j' k' = Some step' →
       (treeid_step <$> arguments (codeLensCommand step))
       = (treeid_step <$> arguments (codeLensCommand step')) →
       i = i' ∧ j = j' ∧ k = k').
Proof.
  split; [vm_compute; reflexivity|].
  apply (create_selection_command sample_parser sample_resolver sample_command
           sample_flows sample_tree).
  vm_compute. reflexivity.
Defined.

Lemma create_labels_nonempty_witness :
  ∃ step,
    create sample_parser sample_resolver sample_command (Some sample_flows)
    = Resolve (Some sample_tree)
    ∧ read_step sample_tree 1 1 2 = Some step
    ∧ message step = "[return call]"
    ∧ message step ≠ "" ∧ messageWithStep step ≠ "".
Proof.
  eexists. split; [vm_compute; reflexivity|]. split; [reflexivity|].
  split; [reflexivity|].
  apply (create_labels_nonempty sample_parser sample_resolver sample_command
           sample_flows sample_tree 1 1 2).
  - vm_compute. reflexivity.
  - reflexivity.
Defined.

Lemma createThreadFlow_last_label_witness :
  ∃ thread step cFLoc,
    createThreadFlow sample_parser sample_resolver sample_command short_thread "1_0"
    = Resolve thread
    ∧ last (steps thread) = Some step
    ∧ last (stf_locations short_thread) = Some cFLoc
    ∧ sample_parser (sl_message (cfl_location cFLoc)) = None
    ∧ message step = "[no description]".
Proof.
  eexists _, _, _. split; [reflexivity|]. split; [reflexivity|].
  split; [reflexivity|]. split; [reflexivity|].
  eapply (createThreadFlow_last_label sample_parser sample_resolver sample_command
            short_thread "1_0"); [reflexivity..|].
  left. reflexivity.
Defined.

Lemma create_classifies_by_successor_witness :
  ∃ step,
    create sample_parser sample_resolver sample_command (Some sample_flows)
    = Resolve (Some sample_tree)
    ∧ read_step sample_tree 1 1 2 = Some step
    ∧ raw_location sample_flows 1 1 2 = Some return_location
    ∧ raw_location sample_flows 1 1 (2 + 1) = Some foo_location
    ∧ cfl_nestingLevel return_location = Some 1%Z
    ∧ cfl_nestingLevel foo_location = Some 0%Z
    ∧ isParent step = (1 <? 0)%Z ∧ isLastChild step = (1 >? 0)%Z.
Proof.
  eexists. split; [vm_compute; reflexivity|].
  split; [reflexivity|]. split; [reflexivity|]. split; [reflexivity|].
  split; [reflexivity|]. split; [reflexivity|].
  apply (create_classifies_by_successor sample_parser sample_resolver sample_command
           sample_flows sample_tree 1 1 2 _ return_location foo_location 1%Z 0%Z);
    solve [reflexivity | vm_compute; reflexivity].
Defined.

Lemma create_resolver_independent_witness :
  create sample_parser sample_resolver sample_command (Some sample_flows)
  = Resolve (Some sample_tree)
  ∧ create sample_parser later_resolver sample_command (Some sample_flows)
    = Resolve (Some later_tree)
  ∧ sample_tree ≠ later_tree
  ∧ erase_locations sample_tree = erase_locations later_tree.
Proof.
  split; [vm_compute; reflexivity|]. split; [vm_compute; reflexivity|].
  split; [discriminate|].
  apply (create_resolver_independent sample_parser sample_resolver later_resolver
           sample_command sample_flows sample_tree later_tree);
    vm_compute; reflexivity.
Defined.

Lemma create_resolver_local_witness :
  (∀ i j k cFLoc,
     raw_location plain_flows i j k = Some cFLoc →
     sample_resolver (sl_physicalLocation (cfl_location cFLoc))
     = later_resolver (sl_physicalLocation (cfl_location cFLoc)))
  ∧ create sample_parser sample_resolver sample_command (Some plain_flows)
    = create sample_parser later_resolver sample_command (Some plain_flows).
Proof.
  assert (∀ i j k cFLoc,
            raw_location plain_flows i j k = Some cFLoc →
            sample_resolver (sl_physicalLocation (cfl_location cFLoc))
            = later_resolver (sl_physicalLocation (cfl_location cFLoc))) as Hagree.
  { intros [|i] [|j] [|[|k]] cFLoc H; vm_compute in H;
      try discriminate H; injection H as <-; reflexivity. }
  split; [exact Hagree|].
  exact (create_resolver_local sample_parser sample_resolver later_resolver
           sample_command plain_flows Hagree).
Defined.

Lemma tryRemapCodeFlows_nothing_to_do_witness :
  (∀ i j k step, read_step later_tree i j k = Some step → needs_remap step = false)
  ∧ tryRemapCodeFlows sample_resolver later_tree [] = (Resolve tt, later_tree).
Proof.
  assert (∀ i j k step, read_step later_tree i j k = Some step →
            needs_remap step = false) as Hsettled.
  { apply read_step_Forall. repeat constructor. }
  split; [exact Hsettled|].
  exact (tryRemapCodeFlows_nothing_to_do sample_resolver later_tree [] Hsettled).
Defined.

Lemma tryRemapCodeFlows_settles_witness :
  tryRemapCodeFlows later_resolver sample_tree sample_flows = (Resolve tt, later_tree)
  ∧ (∀ d loc, later_resolver d = Resolve loc → unmapped loc = false)
  ∧ (∀ i j k step, read_step later_tree i j k = Some step → needs_remap step = false)
  ∧ ∀ (later : option PhysicalLocation → Promise LocationRef) raw',
      tryRemapCodeFlows later later_tree raw' = (Resolve tt, later_tree).
Proof.
  assert (∀ d loc, later_resolver d = Resolve loc → unmapped loc = false) as Hmapped.
  { intros [pl|] loc [= <-]; reflexivity. }
  split; [vm_compute; reflexivity|]. split; [exact Hmapped|].
  apply (tryRemapCodeFlows_settles later_resolver sample_tree sample_flows later_tree);
    [vm_compute; reflexivity | exact Hmapped].
Defined.

Lemma tryRemapCodeFlows_reads_needed_only_witness :
  (∀ i j k step, read_step sample_tree i j k = Some step → needs_remap step = true →
     sarif_location sample_flows i j k
     = sarif_location (sample_flows ++ [null_message_flow]) i j k)
  ∧ tryRemapCodeFlows later_resolver sample_tree sample_flows
    = tryRemapCodeFlows later_resolver sample_tree (sample_flows ++ [null_message_flow]).
Proof.
  assert (∀ i j k step, read_step sample_tree i j k = Some step →
            needs_remap step = true →
            sarif_location sample_flows i j k
            = sarif_location (sample_flows ++ [null_message_flow]) i j k) as Hsame.
  { intros [|[|i]] j k step Hs _; [reflexivity..|]. discriminate Hs. }
  split; [exact Hsame|].
  exact (tryRemapCodeFlows_reads_needed_only later_resolver sample_tree sample_flows
           (sample_flows ++ [null_message_flow]) Hsame).
Defined.

Lemma tryRemapCodeFlows_completes_create_witness :
  create sample_parser sample_resolver sample_command (Some sample_flows)
  = Resolve (Some sample_tree)
  ∧ create sample_parser later_resolver sample_command (Some sample_flows)
    = Resolve (Some later_tree)
  ∧ (∀ d loc, sample_resolver d = Resolve loc → unmapped loc = false →
       later_resolver d = Resolve loc)
  ∧ tryRemapCodeFlows later_resolver sample_tree sample_flows
    = (Resolve tt, later_tree).
Proof.
  assert (∀ d loc, sample_resolver d = Resolve loc → unmapped loc = false →
            later_resolver d = Resolve loc) as Hagree.
  { intros [pl|] loc; simpl; [|by intros [= <-]].
    destruct (String.eqb (pl_uri pl) "broken.c"); [discriminate|].
    intros [= <-]. simpl.
    destruct (String.prefix "gone/" (pl_uri pl)); [discriminate|reflexivity]. }
  split; [vm_compute; reflexivity|]. split; [vm_compute; reflexivity|].
  split; [exact Hagree|].
  apply (tryRemapCodeFlows_completes_create sample_parser sample_resolver later_resolver
           sample_command sample_flows sample_tree later_tree);
    [vm_compute; reflexivity | vm_compute; reflexivity | exact Hagree].
Defined.

Lemma tryRemapCodeFlows_rejected_witness :
  ∃ codeFlows',
    tryRemapCodeFlows later_resolver sample_tree [sample_flow]
    = (Reject TypeError, codeFlows')
    ∧ ∃ i j k step,
        read_step sample_tree i j k = Some step
        ∧ needs_remap step = true
        ∧ remap_fails later_resolver (sarif_location [sample_flow] i j k) TypeError
        ∧ (∀ i' j' k' step',
             visited_before i' j' k' i j k →
             read_step sample_tree i' j' k' = Some step' →
             remapped later_resolver (Resolve tt)
               (sarif_location [sample_flow] i' j' k') step'
               (read_step codeFlows' i' j' k'))
        ∧ (∀ i' j' k' step',
             ¬ visited_before i' j' k' i j k →
             read_step sample_tree i' j' k' = Some step' →
             read_step codeFlows' i' j' k' = Some step').
Proof.
  eexists. split; [vm_compute; reflexivity|].
  apply (tryRemapCodeFlows_rejected later_resolver sample_tree [sample_flow]).
  vm_compute. reflexivity.
Defined.
